(** * dom_master: the reactive store, scopes, dependency registration and
      the block reconcilers of [dommaster.js], as a shallow embedding.

    Conventions of the embedding.
    - JavaScript values are the type [value]: numbers are the integers
      plus [VNaN]; objects, arrays and functions are references.
    - A plain object used as a dictionary is a [gmap string value] of its
      own properties (properties inherited from [Object.prototype] are not
      part of the model).
    - Callbacks are opaque identities.  A store that calls a callback
      appends it to its [fired] trace; the body of the callback is not run
      by the store model.
    - The evaluation of an expression text is done by the host
      ([new Function]); it is a parameter of the code that calls it, and
      the [update] closure of a conditional block takes the value of its
      guard as an argument.
    - A block reconciler works on the child list of its parent node and on
      one DocumentFragment.  What the list reconciler does to the local
      scope of an item and to the inside of a cloned node (its parsing) is
      recorded in a trace of effects.
    - An expression that can throw returns a [completion]; code with
      effects that can throw returns an [outcome]. *)

From Stdlib Require Import ZArith String Ascii Lia.
From stdpp Require Import base option list gmap strings.

Local Open Scope string_scope.
Local Open Scope Z_scope.

(** ** JavaScript values *)

Module JS.

Inductive value : Type :=
| VUndefined
| VNull
| VBool (b : bool)
| VNum (z : Z)
| VNaN
| VStr (s : string)
| VObj (r : nat)      (* a plain object or an array, by reference *)
| VFun (r : nat).     (* a function, by reference *)

#[export] Instance value_eq_dec : EqDecision value.
Proof. solve_decision. Defined.

(** [a === b] *)
Definition strict_eq (a b : value) : bool :=
  match a, b with
  | VUndefined, VUndefined => true
  | VNull, VNull => true
  | VBool x, VBool y => bool_decide (x = y)
  | VNum x, VNum y => (x =? y)%Z
  | VStr x, VStr y => bool_decide (x = y)
  | VObj x, VObj y => (x =? y)%nat
  | VFun x, VFun y => (x =? y)%nat
  | _, _ => false
  end.

(** [a !== b] *)
Definition strict_neq (a b : value) : bool := negb (strict_eq a b).

(** ToBoolean *)
Definition truthy (v : value) : bool :=
  match v with
  | VUndefined | VNull | VNaN => false
  | VBool b => b
  | VNum z => negb (z =? 0)%Z
  | VStr s => negb (bool_decide (s = ""))
  | VObj _ | VFun _ => true
  end.

Inductive type_tag : Type :=
| TUndefined | TObject | TBoolean | TNumber | TString | TFunction.

(** [typeof v] *)
Definition typeof (v : value) : type_tag :=
  match v with
  | VUndefined => TUndefined
  | VNull => TObject
  | VBool _ => TBoolean
  | VNum _ | VNaN => TNumber
  | VStr _ => TString
  | VObj _ => TObject
  | VFun _ => TFunction
  end.

(** [o[key]] on a plain object: the own property or [undefined]. *)
Definition get_prop (o : gmap string value) (key : string) : value :=
  default VUndefined (o !! key).

(** [key in o] on a plain object. *)
Definition has_prop (o : gmap string value) (key : string) : bool :=
  bool_decide (is_Some (o !! key)).

Inductive js_error : Type :=
| TypeError
| ReferenceError
| NotFoundError
| DataCloneError.

(** The result of an expression that may throw. *)
Inductive completion (A : Type) : Type :=
| Normal (a : A)
| Abrupt (e : js_error).
Arguments Normal {A} a.
Arguments Abrupt {A} e.

(** The result of running code that has effects and may throw: the state
    reached is kept in both cases, since effects done before a throw stay
    done. *)
Inductive outcome (A : Type) : Type :=
| Return (a : A)
| Throw (e : js_error) (a : A).
Arguments Return {A} a.
Arguments Throw {A} e a.

End JS.
Export JS.

(** ** [class ReactiveState] *)

Module Store.

(** A callback, by identity. *)
Definition cb : Type := nat.

(** The object [{ variables, callback }] pushed by [addExpression];
    [dep_id] is its identity as an object. *)
Record dependencies : Type := {
  dep_id : nat;
  variables : list string;
  callback : cb;
}.

Record ReactiveState : Type := {
  state : gmap string value;            (* this.state *)
  subscribers : list (string * list cb); (* this.subscribers: Map key -> Set *)
  expressions : list dependencies;      (* this.expressions *)
  next_dep : nat;                       (* identities handed out so far *)
  fired : list cb;                      (* trace: callbacks called, in order *)
}.

(** [new ReactiveState(initialState)] *)
Definition new (initialState : gmap string value) : ReactiveState :=
  {| state := initialState; subscribers := []; expressions := [];
     next_dep := 0%nat; fired := [] |}.

(** [this.subscribers.get(key)], [None] when [has(key)] is false. *)
Fixpoint subscribers_get (m : list (string * list cb)) (key : string)
  : option (list cb) :=
  match m with
  | [] => None
  | (k, set) :: rest =>
      if bool_decide (k = key) then Some set else subscribers_get rest key
  end.

(** [this.subscribers.set(key, set)]: a present key keeps its position. *)
Fixpoint subscribers_set (m : list (string * list cb)) (key : string)
  (set : list cb) : list (string * list cb) :=
  match m with
  | [] => [(key, set)]
  | (k, old) :: rest =>
      if bool_decide (k = key) then (k, set) :: rest
      else (k, old) :: subscribers_set rest key set
  end.

Definition with_state (st : gmap string value) (s : ReactiveState) :=
  {| state := st; subscribers := subscribers s; expressions := expressions s;
     next_dep := next_dep s; fired := fired s |}.

Definition with_subscribers (m : list (string * list cb)) (s : ReactiveState) :=
  {| state := state s; subscribers := m; expressions := expressions s;
     next_dep := next_dep s; fired := fired s |}.

Definition call (c : cb) (s : ReactiveState) : ReactiveState :=
  {| state := state s; subscribers := subscribers s;
     expressions := expressions s; next_dep := next_dep s;
     fired := fired s ++ [c] |}.

Definition call_all (cs : list cb) (s : ReactiveState) : ReactiveState :=
  foldl (fun acc c => call c acc) s cs.

(** [#notify(key)] *)
Definition notify (key : string) (s : ReactiveState) : ReactiveState :=
  match subscribers_get (subscribers s) key with
  | Some set => call_all set s
  | None => s
  end.

(** [variables.includes(changedKey)] *)
Definition includes (l : list string) (key : string) : bool :=
  existsb (fun k => bool_decide (k = key)) l.

(** [#checkExpression(changedKey)] *)
Definition checkExpression (changedKey : string) (s : ReactiveState)
  : ReactiveState :=
  foldl (fun acc d =>
           if includes (variables d) changedKey then call (callback d) acc
           else acc)
        s (expressions s).

(** The callbacks [#checkExpression(changedKey)] calls, in order. *)
Definition expression_callbacks (changedKey : string)
  (es : list dependencies) : list cb :=
  callback <$> filter (fun d => includes (variables d) changedKey = true) es.

(** The [get] trap of [this.proxy]. *)
Definition proxy_get (s : ReactiveState) (key : string) : value :=
  if has_prop (state s) key then get_prop (state s) key else VUndefined.

(** The [set] trap of [this.proxy]: [proxy[key] = value]. The trap always
    returns [true]. *)
Definition proxy_set (key : string) (v : value) (s : ReactiveState)
  : ReactiveState :=
  if strict_neq (get_prop (state s) key) v then
    checkExpression key (notify key (with_state (<[key := v]> (state s)) s))
  else s.


(** [subscribe(key, callback)]; the handle it returns is
    [subscribe_unsubscribe key callback]. *)
Definition subscribe (key : string) (c : cb) (s : ReactiveState)
  : ReactiveState :=
  let m1 :=
    match subscribers_get (subscribers s) key with
    | None => subscribers_set (subscribers s) key []
    | Some _ => subscribers s
    end in
  let set := default [] (subscribers_get m1 key) in
  if bool_decide (c ∈ set) then with_subscribers m1 s
  else with_subscribers (subscribers_set m1 key (set ++ [c])) s.

(** [this.subscribers.get(key).delete(callback)] *)
Definition subscribe_unsubscribe (key : string) (c : cb) (s : ReactiveState)
  : outcome ReactiveState :=
  match subscribers_get (subscribers s) key with
  | Some set =>
      Return
        (with_subscribers
           (subscribers_set (subscribers s) key (filter (fun x => x ≠ c) set))
           s)
  | None => Throw TypeError s
  end.

(** [addExpression(variables, callback)]: returns the object pushed, which
    the returned handle closes over, and the new store. *)
Definition addExpression (vars : list string) (c : cb) (s : ReactiveState)
  : dependencies * ReactiveState :=
  let d := {| dep_id := next_dep s; variables := vars; callback := c |} in
  (d, {| state := state s; subscribers := subscribers s;
         expressions := expressions s ++ [d];
         next_dep := S (next_dep s); fired := fired s |}).

(** [Array.prototype.findIndex] *)
Fixpoint findIndex_from {A} (p : A → bool) (l : list A) (i : Z) : Z :=
  match l with
  | [] => -1
  | x :: rest => if p x then i else findIndex_from p rest (i + 1)
  end.
Definition findIndex {A} (p : A → bool) (l : list A) : Z :=
  findIndex_from p l 0.

(** [Array.prototype.slice(start, end)]: a copy, the array is not changed. *)
Definition slice {A} (start stop : Z) (l : list A) : list A :=
  let len := Z.of_nat (length l) in
  let rel i := if (i <? 0) then Z.max (len + i) 0 else Z.min i len in
  let a := rel start in
  let b := rel stop in
  take (Z.to_nat (b - a)) (drop (Z.to_nat a) l).

(** The [unsubscribe] of the handle returned by [addExpression]:
    [index = expressions.findIndex(obj => obj !== dependencies);
     expressions.slice(index, 1)], the copy being dropped. *)
Definition addExpression_unsubscribe (d : dependencies) (s : ReactiveState)
  : ReactiveState :=
  let index :=
    findIndex (fun obj => negb (dep_id obj =? dep_id d)%nat) (expressions s) in
  let _copy := slice index 1 (expressions s) in
  s.

End Store.

(** ** Objects reachable from the state *)

Module Heap.
Import Store.

(** What the references of [VObj] denote.  A reference that is in
    [managers] is a ReactiveState instance; its own members are not
    modelled as properties. *)
Record World : Type := {
  objects : gmap nat (gmap string value);  (* plain objects *)
  arrays : gmap nat (list value);          (* arrays *)
  managers : gmap nat ReactiveState;       (* ReactiveState instances *)
}.

Definition is_digit (c : ascii) : bool :=
  let n := nat_of_ascii c in (48 <=? n)%nat && (n <=? 57)%nat.

Fixpoint digits_value (s : string) (acc : nat) : option nat :=
  match s with
  | EmptyString => Some acc
  | String c rest =>
      if is_digit c then
        digits_value rest (10 * acc + (nat_of_ascii c - 48))%nat
      else None
  end.

(** A canonical array index: ["0"], or digits without a leading zero. *)
Definition array_index (key : string) : option nat :=
  match key with
  | EmptyString => None
  | String c EmptyString => digits_value key 0
  | String c _ =>
      if bool_decide (c = "0"%char) then None else digits_value key 0
  end.

(** [Array.isArray(v)] *)
Definition isArray (W : World) (v : value) : bool :=
  match v with
  | VObj r => bool_decide (is_Some (arrays W !! r))
  | _ => false
  end.

(** [key in v]: a TypeError when [v] is not an object.  Of a function
    only the own properties [length] and [name] are modelled. *)
Definition js_in (W : World) (key : string) (v : value) : completion bool :=
  match v with
  | VObj r =>
      match objects W !! r, arrays W !! r with
      | Some o, _ => Normal (has_prop o key)
      | None, Some l =>
          Normal (bool_decide (key = "length")
                  || match array_index key with
                     | Some i => (i <? length l)%nat
                     | None => false
                     end)
      | None, None => Normal false
      end
  | VFun _ =>
      Normal (bool_decide (key = "length") || bool_decide (key = "name"))
  | _ => Abrupt TypeError
  end.

(** [v[key]]: a TypeError when [v] is [undefined] or [null]. *)
Definition js_get (W : World) (v : value) (key : string) : completion value :=
  match v with
  | VUndefined | VNull => Abrupt TypeError
  | VObj r =>
      match objects W !! r, arrays W !! r with
      | Some o, _ => Normal (get_prop o key)
      | None, Some l =>
          if bool_decide (key = "length") then
            Normal (VNum (Z.of_nat (length l)))
          else
            match array_index key with
            | Some i => Normal (default VUndefined (l !! i))
            | None => Normal VUndefined
            end
      | None, None => Normal VUndefined
      end
  | VStr s =>
      if bool_decide (key = "length") then
        Normal (VNum (Z.of_nat (String.length s)))
      else
        match array_index key with
        | Some i =>
            match String.get i s with
            | Some c => Normal (VStr (String c EmptyString))
            | None => Normal VUndefined
            end
        | None => Normal VUndefined
        end
  | _ => Normal VUndefined
  end.

(** Whether [structuredClone(v)] returns: it throws a DataCloneError when
    a function or a ReactiveState instance (a Proxy) is reachable from [v]
    through enumerable properties and array elements.  [fuel] bounds the
    depth of the search. *)
Fixpoint cloneable_at (fuel : nat) (W : World) (v : value) : bool :=
  match v with
  | VFun _ => false
  | VObj r =>
      match fuel with
      | O => true
      | S f =>
          match objects W !! r, arrays W !! r, managers W !! r with
          | Some o, _, _ => forallb (cloneable_at f W) (map_to_list o).*2
          | None, Some l, _ => forallb (cloneable_at f W) l
          | None, None, Some _ => false
          | None, None, None => true
          end
      end
  | _ => true
  end.

(** A function that is reachable is reachable through objects that are all
    different, so a depth of the number of objects is enough. *)
Definition structuredClone_ok (W : World) (v : value) : bool :=
  cloneable_at (S (size (objects W) + size (arrays W))) W v.

End Heap.

(** ** [createLocalProxy] *)

Module Scope.
Import Store.

Section WithHost.

(** [o == p] for an object [o] and a primitive [p] that is neither
    [undefined] nor [null]: the host compares [p] with the primitive the
    object converts to. *)
Variable object_equals_primitive : value → value → bool.

(** [a == b], for [a] with [typeof a == "object"]. *)
Definition loose_eq_object (a b : value) : bool :=
  match a, b with
  | VNull, (VNull | VUndefined) => true
  | VNull, _ => false
  | VObj x, VObj y => (x =? y)%nat
  | VObj _, (VNull | VUndefined | VFun _) => false
  | VObj _, _ => object_equals_primitive a b
  | _, _ => false
  end.

(** The scope: the proxy's target.  The fallback [globalState], the state
    proxy of the global store, is passed to the traps. *)
Record scope : Type := { target : gmap string value }.

(** [createLocalProxy(localState, globalState, globalManager)]:
    [globalStateCopy] is the reference of the fresh object
    [{ ...globalState }]. *)
Definition createLocalProxy (localState : gmap string value)
  (globalStateCopy globalManager : value) : scope :=
  {| target :=
       <["__globalManager" := globalManager]>
         (<["__globalState" := globalStateCopy]> localState) |}.

(** The [get] trap. *)
Definition get (sc : scope) (globalState : ReactiveState) (key : string)
  : value :=
  if has_prop (target sc) key then get_prop (target sc) key
  else if has_prop (state globalState) key then proxy_get globalState key
  else VUndefined.

(** The [set] trap: the trap's return value, the scope and the global
    store after the write. *)
Definition set (sc : scope) (globalState : ReactiveState) (key : string)
  (v : value) : bool * scope * ReactiveState :=
  if match typeof (get_prop (target sc) key) with
     | TObject => loose_eq_object (get_prop (target sc) key) v
     | _ => false
     end
  then (true, sc, globalState)
  else if has_prop (target sc) key then
    (true, {| target := <[key := v]> (target sc) |}, globalState)
  else if has_prop (state globalState) key then
    (true, sc, proxy_set key v globalState)
  else (false, sc, globalState).

End WithHost.

End Scope.

(** ** Strings and the regular expressions of the source

    Strings are sequences of 8-bit code units; the regular expressions are
    written out as the scanners they denote. *)

Module Text.

Definition chars : Type := list ascii.

Definition of_string (s : string) : chars := list_ascii_of_string s.
Definition to_string (l : chars) : string := string_of_list_ascii l.

Definition code (c : ascii) : nat := nat_of_ascii c.

Definition is_lbrace (c : ascii) : bool := (code c =? 123)%nat.
Definition is_rbrace (c : ascii) : bool := (code c =? 125)%nat.
Definition is_brace (c : ascii) : bool := is_lbrace c || is_rbrace c.
Definition is_quote (c : ascii) : bool :=
  (code c =? 39)%nat || (code c =? 34)%nat.
Definition is_backslash (c : ascii) : bool := (code c =? 92)%nat.
Definition is_dot (c : ascii) : bool := (code c =? 46)%nat.
Definition is_lbracket (c : ascii) : bool := (code c =? 91)%nat.
Definition is_rbracket (c : ascii) : bool := (code c =? 93)%nat.
(** Characters [.] does not match. *)
Definition is_line_terminator (c : ascii) : bool :=
  (code c =? 10)%nat || (code c =? 13)%nat.
(** [\s], and what [trim] removes. *)
Definition is_space (c : ascii) : bool :=
  let n := code c in
  ((9 <=? n)%nat && (n <=? 13)%nat) || (n =? 32)%nat || (n =? 160)%nat.
(** The class [[a-zA-Z_$\.]]. *)
Definition is_token_char (c : ascii) : bool :=
  let n := code c in
  ((97 <=? n)%nat && (n <=? 122)%nat) || ((65 <=? n)%nat && (n <=? 90)%nat)
  || (n =? 95)%nat || (n =? 36)%nat || (n =? 46)%nat.

(** The quoted-string expression of [isStringRegx], tried just after an
    opening quote [q]: the number of characters the match takes from
    [rest], closing quote included.  The body is a run of characters that
    are neither [q], a backslash nor a line terminator, or of a backslash
    followed by a character that is not a line terminator. *)
Fixpoint quoted_length (q : ascii) (rest : chars) : option nat :=
  match rest with
  | [] => None
  | c :: r =>
      if bool_decide (c = q) then Some 1%nat
      else if is_backslash c then
        match r with
        | [] => None
        | d :: r' =>
            if is_line_terminator d then None
            else (fun n => S (S n)) <$> quoted_length q r'
        end
      else if is_line_terminator c then None
      else S <$> quoted_length q r
  end.

(** Every quoted string replaced by the empty string (the global
    [replace] of [getTokensFromExpression]); [skip] counts the characters
    of a match still to be dropped. *)
Fixpoint remove_quoted_from (skip : nat) (s : chars) : chars :=
  match s with
  | [] => []
  | c :: rest =>
      match skip with
      | S k => remove_quoted_from k rest
      | O =>
          if is_quote c then
            match quoted_length c rest with
            | Some n => remove_quoted_from n rest
            | None => c :: remove_quoted_from 0 rest
            end
          else c :: remove_quoted_from 0 rest
      end
  end.
Definition remove_quoted (s : chars) : chars := remove_quoted_from 0 s.

(** [s.match(isStringRegx)]: the leftmost quoted string, quotes included;
    [isStringRegx.test(s)] tells whether there is one. *)
Fixpoint first_quoted (s : chars) : option chars :=
  match s with
  | [] => None
  | c :: rest =>
      if is_quote c then
        match quoted_length c rest with
        | Some n => Some (c :: take n rest)
        | None => first_quoted rest
        end
      else first_quoted rest
  end.

(** [s.trim()] *)
Fixpoint trim_start (s : chars) : chars :=
  match s with
  | [] => []
  | c :: rest => if is_space c then trim_start rest else s
  end.
Definition trim (s : chars) : chars :=
  reverse (trim_start (reverse (trim_start s))).

(** [s.split(/[^a-zA-Z_$\.]+/)]: [cur] is the piece being read, reversed;
    [in_sep] tells that the last character was a separator. *)
Fixpoint split_tokens_from (s : chars) (cur : chars) (in_sep : bool)
  : list chars :=
  match s with
  | [] => [reverse cur]
  | c :: rest =>
      if is_token_char c then split_tokens_from rest (c :: cur) false
      else if in_sep then split_tokens_from rest [] true
      else reverse cur :: split_tokens_from rest [] true
  end.
Definition split_tokens (s : chars) : list chars :=
  split_tokens_from s [] false.

(** [token.split(sep)[0]], for a one-character separator. *)
Fixpoint before (is_sep : ascii → bool) (s : chars) : chars :=
  match s with
  | [] => []
  | c :: rest => if is_sep c then [] else c :: before is_sep rest
  end.

(** [token.split(".").at(-1)] *)
Fixpoint after_last_dot_from (s : chars) (cur : chars) : chars :=
  match s with
  | [] => reverse cur
  | c :: rest =>
      if is_dot c then after_last_dot_from rest []
      else after_last_dot_from rest (c :: cur)
  end.
Definition after_last_dot (s : chars) : chars := after_last_dot_from s [].

(** [s.includes(c)], for a one-character string. *)
Definition includes_char (is_c : ascii → bool) (s : chars) : bool :=
  existsb is_c s.

(** The number of characters of [[^\{\}]+] at the head of [s]. *)
Fixpoint nonbrace_run (s : chars) : nat :=
  match s with
  | [] => O
  | c :: rest => if is_brace c then O else S (nonbrace_run rest)
  end.

(** [braceRegex] tried just after an opening brace: the number of
    characters the match takes from [rest], closing brace included. *)
Definition brace_length (rest : chars) : option nat :=
  let n := nonbrace_run rest in
  match n, drop n rest with
  | S _, c :: _ => if is_rbrace c then Some (S n) else None
  | _, _ => None
  end.

(** [template.match(braceRegex)]: the matches, braces included; [None]
    for [null], when there is none. *)
Fixpoint brace_matches_from (skip : nat) (s : chars) : list chars :=
  match s with
  | [] => []
  | c :: rest =>
      match skip with
      | S k => brace_matches_from k rest
      | O =>
          if is_lbrace c then
            match brace_length rest with
            | Some n => (c :: take n rest) :: brace_matches_from n rest
            | None => brace_matches_from 0 rest
            end
          else brace_matches_from 0 rest
      end
  end.
Definition brace_matches (template : string) : option (list string) :=
  match brace_matches_from 0 (of_string template) with
  | [] => None
  | ms => Some (to_string <$> ms)
  end.

(** [s.startsWith(pat)] and the test of a regular expression that is a
    literal text. *)
Fixpoint starts_with (pat s : chars) : bool :=
  match pat, s with
  | [], _ => true
  | _ :: _, [] => false
  | p :: pat', c :: s' => bool_decide (p = c) && starts_with pat' s'
  end.

Fixpoint contains (pat s : chars) : bool :=
  starts_with pat s
  || match s with
     | [] => false
     | _ :: s' => contains pat s'
     end.

(** [[...new Set(l)]]: first occurrences, in order. *)
Fixpoint unique_from (seen l : list string) : list string :=
  match l with
  | [] => []
  | x :: rest =>
      if bool_decide (x ∈ seen) then unique_from seen rest
      else x :: unique_from (x :: seen) rest
  end.
Definition unique (l : list string) : list string := unique_from [] l.

End Text.

(** ** [getTokensFromExpression], [registerDependencies],
       [getValueFromExpression], [getArgumentValue] *)

Module Registrar.
Import Store Heap Text.

(** The [variables] argument of the engine's functions: the state proxy of
    a store, or a scope made by [createLocalProxy] whose fallback is the
    state proxy of the store [fallback]. *)
Inductive variables : Type :=
| StoreProxy (m : nat)
| ScopeProxy (sc : Scope.scope) (fallback : nat).

Definition manager (W : World) (m : nat) : ReactiveState :=
  default (Store.new ∅) (managers W !! m).

(** [key in variables]: neither proxy has a [has] trap. *)
Definition var_in (W : World) (vars : variables) (key : string) : bool :=
  match vars with
  | StoreProxy m => has_prop (state (manager W m)) key
  | ScopeProxy sc _ => has_prop (Scope.target sc) key
  end.

(** [variables[key]] *)
Definition var_get (W : World) (vars : variables) (key : string) : value :=
  match vars with
  | StoreProxy m => proxy_get (manager W m) key
  | ScopeProxy sc g => Scope.get sc (manager W g) key
  end.

(** [stateManager?.globalState]: the instance proxy's [get] trap; a
    ReactiveState has no member of that name, so the read falls through to
    the state. *)
Definition manager_globalState (W : World) (stateManager : value)
  : completion value :=
  match stateManager with
  | VUndefined | VNull => Normal VUndefined
  | VObj r =>
      match managers W !! r with
      | Some s =>
          Normal (if has_prop (state s) "globalState"
                  then proxy_get s "globalState" else VUndefined)
      | None => js_get W stateManager "globalState"
      end
  | _ => js_get W stateManager "globalState"
  end.

(** [isInTarget(token, gs.state)] for a truthy [gs]. *)
Definition in_state_of (W : World) (token : string) (gs : value)
  : completion bool :=
  match gs with
  | VObj r =>
      match managers W !! r with
      | Some s => Normal (has_prop (state s) token)
      | None =>
          match js_get W gs "state" with
          | Normal st => js_in W token st
          | Abrupt e => Abrupt e
          end
      end
  | _ =>
      match js_get W gs "state" with
      | Normal st => js_in W token st
      | Abrupt e => Abrupt e
      end
  end.

(** [variables?.__globalState && token in variables.__globalState], as a
    condition. *)
Definition in_globalState (W : World) (vars : variables) (token : string)
  : completion bool :=
  let gs := var_get W vars "__globalState" in
  if truthy gs then js_in W token gs else Normal false.

(** The callback of the [filter] of [getTokensFromExpression]: the three
    [let]s are evaluated before the disjunction. *)
Definition keep_token (W : World) (vars : variables) (stateManager : value)
  (token : string) : completion bool :=
  let isInVars := var_in W vars token in
  match in_globalState W vars token with
  | Abrupt e => Abrupt e
  | Normal isIn_globalState =>
      match manager_globalState W stateManager with
      | Abrupt e => Abrupt e
      | Normal gs =>
          match (if truthy gs then in_state_of W token gs else Normal false) with
          | Abrupt e => Abrupt e
          | Normal isInGlobalStore =>
              Normal (isInVars || isIn_globalState || isInGlobalStore)
          end
      end
  end.

Fixpoint filter_tokens (W : World) (vars : variables) (stateManager : value)
  (tokens : list string) : completion (list string) :=
  match tokens with
  | [] => Normal []
  | t :: rest =>
      match keep_token W vars stateManager t with
      | Abrupt e => Abrupt e
      | Normal b =>
          match filter_tokens W vars stateManager rest with
          | Abrupt e => Abrupt e
          | Normal l => Normal (if b then t :: l else l)
          end
      end
  end.

(** The [map] callback of [getTokensFromExpression]. *)
Definition root (token : string) : string :=
  let t := of_string token in
  if includes_char is_dot t then to_string (before is_dot t)
  else if includes_char is_lbracket t then to_string (before is_lbracket t)
  else token.

(** The tokens before the [Set]: quoted strings removed, trimmed, split,
    empty pieces dropped. *)
Definition raw_tokens (expression : string) : list string :=
  filter (fun t => t ≠ "")
    (to_string <$> split_tokens (trim (remove_quoted (of_string expression)))).

(** [getTokensFromExpression(expression, variables, stateManager)] *)
Definition getTokensFromExpression (W : World) (expression : string)
  (vars : variables) (stateManager : value) : completion (list string) :=
  filter_tokens W vars stateManager (root <$> unique (raw_tokens expression)).

(** A method call [m.f(...)] on a value that has to be a ReactiveState. *)
Definition on_manager (W : World) (m : value)
  (f : ReactiveState → ReactiveState) : outcome World :=
  match m with
  | VObj r =>
      match managers W !! r with
      | Some s =>
          Return {| objects := objects W; arrays := arrays W;
                    managers := <[r := f s]> (managers W) |}
      | None => Throw TypeError W
      end
  | _ => Throw TypeError W
  end.

(** [filteredTokens.some(token => variables?.__globalState && token in
    variables.__globalState)] *)
Fixpoint some_in_globalState (W : World) (vars : variables)
  (tokens : list string) : completion bool :=
  match tokens with
  | [] => Normal false
  | t :: rest =>
      match in_globalState W vars t with
      | Abrupt e => Abrupt e
      | Normal true => Normal true
      | Normal false => some_in_globalState W vars rest
      end
  end.

(** The body of the [forEach] of [registerDependencies], for one
    expression.  The source file is a module, hence strict code: the
    assignment to the undeclared name [unsub] throws a ReferenceError,
    once its right-hand side has been evaluated. *)
Definition register_expression (W : World) (expression : string)
  (vars : variables) (callback : cb) (stateManager : value) : outcome World :=
  match getTokensFromExpression W expression vars stateManager with
  | Abrupt e => Throw e W
  | Normal filteredTokens =>
      match filteredTokens with
      | [token] =>
          match in_globalState W vars token with
          | Abrupt e => Throw e W
          | Normal true =>
              on_manager W (var_get W vars "__globalManager")
                (subscribe token callback)
          | Normal false =>
              on_manager W stateManager (subscribe token callback)
          end
      | _ =>
          match some_in_globalState W vars filteredTokens with
          | Abrupt e => Throw e W
          | Normal true =>
              match on_manager W (var_get W vars "__globalManager")
                      (fun s => (addExpression filteredTokens callback s).2)
              with
              | Return W' => Throw ReferenceError W'
              | Throw e W' => Throw e W'
              end
          | Normal false =>
              on_manager W stateManager
                (fun s => (addExpression filteredTokens callback s).2)
          end
      end
  end.

Fixpoint register_expressions (W : World) (expressions : list string)
  (vars : variables) (callback : cb) (stateManager : value) : outcome World :=
  match expressions with
  | [] => Return W
  | e :: rest =>
      match register_expression W e vars callback stateManager with
      | Return W' => register_expressions W' rest vars callback stateManager
      | Throw err W' => Throw err W'
      end
  end.

(** [registerDependencies(template, variables, callback, stateManager)]:
    [forEach] on [null] is a TypeError. *)
Definition registerDependencies (W : World) (template : string)
  (vars : variables) (callback : cb) (stateManager : value) : outcome World :=
  match brace_matches template with
  | None => Throw TypeError W
  | Some expressions =>
      register_expressions W expressions vars callback stateManager
  end.

End Registrar.

Module Evaluator.
Import Store Heap Text Registrar.

(** [target.split(/[.\[\]]/)]: every separator character ends a piece. *)
Fixpoint split_path_from (s : chars) (cur : chars) : list chars :=
  match s with
  | [] => [reverse cur]
  | c :: rest =>
      if is_dot c || is_lbracket c || is_rbracket c
      then reverse cur :: split_path_from rest []
      else split_path_from rest (c :: cur)
  end.

Definition path_parts (target : string) : list string :=
  filter (fun t => t ≠ "") (to_string <$> split_path_from (of_string target) []).

(** The variable [current] of [getValueFromExpression]: at first
    [variables] itself, then a value read from it. *)
Inductive cursor : Type :=
| AtVariables
| AtValue (v : value).

Definition cursor_is_nullish (c : cursor) : bool :=
  match c with
  | AtValue (VUndefined | VNull) => true
  | _ => false
  end.

Definition cursor_in (W : World) (vars : variables) (key : string) (c : cursor)
  : completion bool :=
  match c with
  | AtVariables => Normal (var_in W vars key)
  | AtValue v => js_in W key v
  end.

Definition cursor_get (W : World) (vars : variables) (c : cursor) (key : string)
  : completion value :=
  match c with
  | AtVariables => Normal (var_get W vars key)
  | AtValue v => js_get W v key
  end.

(** The result object [{ has, value }]. *)
Record lookup_result : Type := { has : bool; value_of : value }.

(** The loop of [getValueFromExpression] over [parts], the last part being
    read after the loop. *)
Fixpoint walk (W : World) (vars : variables) (current : cursor)
  (parts : list string) : completion lookup_result :=
  match parts with
  | [] =>
      match cursor_get W vars current "undefined" with
      | Normal v => Normal {| has := true; value_of := v |}
      | Abrupt e => Abrupt e
      end
  | [laskey] =>
      match cursor_get W vars current laskey with
      | Normal v => Normal {| has := true; value_of := v |}
      | Abrupt e => Abrupt e
      end
  | key :: rest =>
      if cursor_is_nullish current then
        Normal {| has := false; value_of := VUndefined |}
      else
        match cursor_in W vars key current with
        | Abrupt e => Abrupt e
        | Normal false => Normal {| has := false; value_of := VUndefined |}
        | Normal true =>
            match cursor_get W vars current key with
            | Abrupt e => Abrupt e
            | Normal v => walk W vars (AtValue v) rest
            end
        end
  end.

(** [getValueFromExpression(variables, target)] *)
Definition getValueFromExpression (W : World) (vars : variables)
  (target : string) : completion lookup_result :=
  walk W vars AtVariables (path_parts target).

Section WithHost.

(** [parsePrimitive] is called by [getArgumentValue] and declared nowhere
    in the file; it is taken as given. *)
Variable parsePrimitive : string → completion value.

(** [evaluateExpression(expression, variables)]: the expression text is
    compiled and run by the host.  Both its [try] blocks are caught, so it
    returns a value. *)
Variable evaluateExpression : World → string → variables → value.

Definition Booleans : list string :=
  ["true"; "false"; "null"; "undefined"; "NaN"; "NaN"; "Infinity";
   "-Infinity"].

(** [getArgumentValue(currentArg, variables)]: the completion, and the
    messages written with [console.error]. *)
Definition getArgumentValue (W : World) (currentArg : string)
  (vars : variables) : completion value * list string :=
  if existsb (fun b => bool_decide (b = currentArg)) Booleans then
    (parsePrimitive currentArg, [])
  else
    match first_quoted (of_string currentArg) with
    | Some m =>
        (Normal (VStr (to_string
                         (filter (fun c => is_quote c = false) (trim m)))),
         [])
    | None =>
        let arg := of_string currentArg in
        if includes_char is_dot arg then
          let objKey := to_string (before is_dot arg) in
          let targetKey := to_string (after_last_dot arg) in
          match js_in W targetKey (var_get W vars objKey) with
          | Abrupt e => (Abrupt e, [])
          | Normal false =>
              (Normal VUndefined,
               ["Error: undefined reading arguments " ++ currentArg ++ "."])
          | Normal true =>
              (Normal (evaluateExpression W currentArg vars), [])
          end
        else (Normal (evaluateExpression W currentArg vars), [])
    end.

End WithHost.

End Evaluator.

(** ** The part of the document tree a block works on

    A block reconciler touches the child list of one parent node and one
    DocumentFragment.  A node that is in neither list is detached. *)

Module Dom.

Definition node : Type := nat.

Record tree : Type := {
  childNodes : list node;   (* parentNode.childNodes *)
  fragment : list node;     (* the children of the DocumentFragment *)
}.

Definition without (n : node) (l : list node) : list node :=
  filter (fun x => x ≠ n) l.

(** The nodes of [l] that are not among [ns]. *)
Definition outside (ns : list node) (l : list node) : list node :=
  filter (fun x => x ∉ ns) l.

(** [fragment.appendChild(n)]: [n] leaves its parent and becomes the last
    child of the fragment. *)
Definition fragment_appendChild (n : node) (t : tree) : tree :=
  {| childNodes := without n (childNodes t);
     fragment := without n (fragment t) ++ [n] |}.

(** [n.remove()] *)
Definition node_remove (n : node) (t : tree) : tree :=
  {| childNodes := without n (childNodes t);
     fragment := without n (fragment t) |}.

Fixpoint next_in (l : list node) (n : node) : option node :=
  match l with
  | [] => None
  | x :: rest => if bool_decide (x = n) then head rest else next_in rest n
  end.

(** [n.nextSibling], [None] for [null]. *)
Definition nextSibling (n : node) (t : tree) : option node :=
  if bool_decide (n ∈ childNodes t) then next_in (childNodes t) n
  else next_in (fragment t) n.

Fixpoint insert_before (ref : node) (new : list node) (l : list node)
  : list node :=
  match l with
  | [] => []
  | x :: rest =>
      if bool_decide (x = ref) then new ++ x :: rest
      else x :: insert_before ref new rest
  end.

(** [parentNode.insertBefore(fragment, ref)]: the children of the fragment
    move before [ref], to the end when [ref] is [null]; a [ref] that is not
    a child of the parent is a NotFoundError. *)
Definition parent_insertBefore (ref : option node) (t : tree) : outcome tree :=
  match ref with
  | None => Return {| childNodes := childNodes t ++ fragment t; fragment := [] |}
  | Some r =>
      if bool_decide (r ∈ childNodes t) then
        Return {| childNodes := insert_before r (fragment t) (childNodes t);
                  fragment := [] |}
      else Throw NotFoundError t
  end.

(** [parentNode.removeChild(n)] *)
Definition parent_removeChild (n : node) (t : tree) : outcome tree :=
  if bool_decide (n ∈ childNodes t) then
    Return {| childNodes := without n (childNodes t); fragment := fragment t |}
  else Throw NotFoundError t.

End Dom.

(** ** [parseIfStatements]: the [update] closure of a conditional block *)

Module IfBlock.
Import Dom.

(** What [getBlock] returns, without the guard text. *)
Record block : Type := {
  ifBlock : list node;
  elseBlock : list node;
  blockStart : node;
}.

(** The variables the closure captures and changes: the tree, with
    [tempFragment] as its fragment, and [lastEval]. *)
Record block_state : Type := {
  dom : tree;
  lastEval : value;
}.

(** [update()], when [evaluateExpression(expression, variables)] returns
    [evaluation]. *)
Definition update (b : block) (evaluation : value) (st : block_state)
  : outcome block_state :=
  if strict_eq (lastEval st) evaluation then Return st
  else
    let t1 :=
      if truthy evaluation then
        foldl (fun t n => node_remove n t)
          (foldl (fun t n => fragment_appendChild n t) (dom st) (ifBlock b))
          (elseBlock b)
      else
        foldl (fun t n => node_remove n t)
          (foldl (fun t n => fragment_appendChild n t) (dom st) (elseBlock b))
          (ifBlock b) in
    match parent_insertBefore (nextSibling (blockStart b) t1) t1 with
    | Return t2 => Return {| dom := t2; lastEval := evaluation |}
    | Throw e t2 => Throw e {| dom := t2; lastEval := lastEval st |}
    end.

(** The state when the closure is made: [lastEval = undefined] and an empty
    [tempFragment]; then the first call [update()]. *)
Definition initial (children : list node) : block_state :=
  {| dom := {| childNodes := children; fragment := [] |};
     lastEval := VUndefined |}.

Definition bind (b : block) (children : list node) (evaluation : value)
  : outcome block_state :=
  update b evaluation (initial children).

(** The nodes of both branches, and the branch a guard value selects. *)
Definition block_nodes (b : block) : list node := ifBlock b ++ elseBlock b.

Definition selected (b : block) (evaluation : value) : list node :=
  if truthy evaluation then ifBlock b else elseBlock b.

(** A branch is attached when it has nodes and all of them are children of
    the parent. *)
Definition attached (branch : list node) (t : tree) : Prop :=
  branch ≠ [] ∧ ∀ n, n ∈ branch → n ∈ childNodes t.

Definition detached (branch : list node) (t : tree) : Prop :=
  ∀ n, n ∈ branch → n ∉ childNodes t.

End IfBlock.

(** ** [parseEachBlocks]: the [update] closure of a for:each block *)

Module EachBlock.
Import Store Heap Registrar Evaluator Dom.

(** What the closure captures from the marker and the template element.
    [keys] is [Some] for a destructured item name, in which case
    [itemName] has been replaced by the placeholder name. *)
Record each_block : Type := {
  itemName : string;
  indexName : string;
  arrayName : string;
  keys : option (list string);
  expression : string;
  blockStart : node;
  nested_each : bool;  (* a child of eachContent carries a for:each marker *)
}.

(** A sibling of the marker node, as the head of [parseEachBlocks] sees
    it: a text node with its [nodeValue], or an element. *)
Inductive sibling : Type :=
| TextNode (nodeValue : string)
| ElementNode (n : node).

(** [node.nextElementSibling], with the siblings that follow it. *)
Fixpoint nextElementSibling (after : list sibling)
  : option (node * list sibling) :=
  match after with
  | [] => None
  | ElementNode n :: rest => Some (n, rest)
  | TextNode _ :: rest => nextElementSibling rest
  end.

(** [endEach.test(v)] *)
Definition endEach_test (v : string) : bool :=
  Text.contains (Text.of_string "{end:each}") (Text.of_string v).

(** The check of the closing marker at the head of [parseEachBlocks]:
    [after] holds the siblings that follow the marker node.  The result is
    the list of the errors logged.  The [nodeValue] of an element is
    [null], which the test reads as the text [null]. *)
Definition closing_check (after : list sibling) (expression : string)
  : completion (list string) :=
  match nextElementSibling after with
  | None => Abrupt TypeError            (* eachContent is null *)
  | Some (_, []) => Abrupt TypeError    (* eachContent.nextSibling is null *)
  | Some (_, TextNode v :: _) =>
      if endEach_test v then Normal []
      else Normal ["Error: Expected closing state for each block: "
                   ++ expression]
  | Some (_, ElementNode _ :: _) =>
      Normal ["Error: Expected closing state for each block: " ++ expression]
  end.

(** The [data] of an entry of [state.domNodes]. *)
Record item_data : Type := {
  item : value;
  index : nat;
  _dom_master_key : value;
}.

(** An entry of [state.domNodes].  The entry's [stateProxy] and
    [localManager] belong to its node; writes to them are recorded in the
    trace of effects. *)
Record rendered : Type := {
  node_of : node;
  data : item_data;
}.

(** What the closure does outside the tree and its own records. *)
Inductive effect : Type :=
| ConsoleError (message : string)
| ConsoleWarn (message : string)
  (* stateProxy[indexName] = index; localManager[indexName] = index *)
| WriteIndex (n : node) (name : string) (index : nat)
  (* stateProxy[name] = v; localManager.proxy[name] = v, where v is read
     from the copy structuredClone(item) when [cloned] *)
| WriteItem (n : node) (name : string) (v : value) (cloned : bool)
  (* new ReactiveState(localContext) and createLocalProxy for a new node *)
| NewScope (n : node) (localContext : list (string * value))
  (* eachContent.cloneNode(true) *)
| CloneNode (n : node)
| ParseEachBlocks (n : node)
| ParseIfStatements (n : node)
| ParseNode (n : node).

Record each_state : Type := {
  dom : tree;
  domNodes : list rendered;        (* state.domNodes *)
  hidden_keys : gmap nat value;    (* the property defined on objects *)
  next_node : node;                (* the identity of the next clone *)
  uniid_calls : nat;               (* calls of uniid() so far *)
  effects : list effect;
}.

Definition with_effects (es : list effect) (st : each_state) : each_state :=
  {| dom := dom st; domNodes := domNodes st; hidden_keys := hidden_keys st;
     next_node := next_node st; uniid_calls := uniid_calls st;
     effects := effects st ++ es |}.

Definition with_dom (t : tree) (st : each_state) : each_state :=
  {| dom := t; domNodes := domNodes st; hidden_keys := hidden_keys st;
     next_node := next_node st; uniid_calls := uniid_calls st;
     effects := effects st |}.

(** [oldNodeMap]: a Map, in insertion order; its keys are compared as
    SameValueZero, which on [value] is equality. *)
Abbreviation node_map := (list (value * rendered)).

Fixpoint map_get (m : node_map) (k : value) : option rendered :=
  match m with
  | [] => None
  | (k', r) :: rest => if bool_decide (k' = k) then Some r else map_get rest k
  end.

Fixpoint map_set (m : node_map) (k : value) (r : rendered) : node_map :=
  match m with
  | [] => [(k, r)]
  | (k', r') :: rest =>
      if bool_decide (k' = k) then (k', r) :: rest
      else (k', r') :: map_set rest k r
  end.

Definition map_delete (m : node_map) (k : value) : node_map :=
  filter (fun e => e.1 ≠ k) m.

(** [new Map(state.domNodes.map(r => [r.data._dom_master_key, r]))] *)
Definition map_of (l : list rendered) : node_map :=
  foldl (fun m r => map_set m (_dom_master_key (data r)) r) [] l.

Definition key_of_record (r : rendered) : value := _dom_master_key (data r).

(** The entry of [oldNodeMap] made from a record. *)
Definition entry_of (r : rendered) : value * rendered := (key_of_record r, r).

(** An item that is an object which carries the truthy key [k], as every
    object does once it has been rendered. *)
Definition keyed (hidden : gmap nat value) (it k : value) : Prop :=
  ∃ r, it = VObj r ∧ hidden !! r = Some k ∧ truthy k = true.

(** The records the reuse branch makes for the items, whose keys are [ks],
    from the entries of [m], the first item being at position [i]. *)
Fixpoint reused (m : node_map) (items ks : list value) (i : nat)
  : list rendered :=
  match items, ks with
  | it :: items', k :: ks' =>
      match map_get m k with
      | Some old =>
          {| node_of := node_of old;
             data := {| item := it; index := i; _dom_master_key := k |} |}
          :: reused m items' ks' (S i)
      | None => reused m items' ks' (S i)
      end
  | _, _ => []
  end.

(** [item._dom_master_key] *)
Definition read_key (W : World) (hidden : gmap nat value) (it : value)
  : completion value :=
  match it with
  | VObj r =>
      match hidden !! r with
      | Some k => Normal k
      | None => js_get W it "_dom_master_key"
      end
  | _ => js_get W it "_dom_master_key"
  end.

(** [typeof item === "object" ? item._dom_master_key : item] *)
Definition key_of (W : World) (hidden : gmap nat value) (it : value)
  : completion value :=
  match typeof it with
  | TObject => read_key W hidden it
  | _ => Normal it
  end.

Section WithHost.

(** [uniid()]: the string returned by the n-th call. *)
Variable uniid : nat → string.

(** The body of the first [forEach]: an object without a truthy key gets
    one, as a property that is neither writable nor configurable, so that
    defining it again with another value is a TypeError. *)
Definition mint (W : World) (it : value) (st : each_state)
  : outcome each_state :=
  match typeof it with
  | TObject =>
      match read_key W (hidden_keys st) it with
      | Abrupt e => Throw e st
      | Normal k =>
          if truthy k then Return st
          else
            let id := VStr (uniid (uniid_calls st)) in
            let st1 :=
              {| dom := dom st; domNodes := domNodes st;
                 hidden_keys := hidden_keys st; next_node := next_node st;
                 uniid_calls := S (uniid_calls st); effects := effects st |} in
            match it with
            | VObj r =>
                match hidden_keys st !! r with
                | Some old =>
                    if bool_decide (old = id) then Return st1
                    else Throw TypeError st1
                | None =>
                    Return
                      {| dom := dom st1; domNodes := domNodes st1;
                         hidden_keys := <[r := id]> (hidden_keys st1);
                         next_node := next_node st1;
                         uniid_calls := uniid_calls st1;
                         effects := effects st1 |}
                end
            | _ => Throw TypeError st1
            end
      end
  | _ => Return st
  end.

Fixpoint mint_all (W : World) (items : list value) (st : each_state)
  : outcome each_state :=
  match items with
  | [] => Return st
  | it :: rest =>
      match mint W it st with
      | Return st' => mint_all W rest st'
      | Throw e st' => Throw e st'
      end
  end.

(** The variables of the second [forEach]. *)
Record loop_state : Type := {
  oldNodeMap : node_map;
  newDomNodes : list rendered;
  world : each_state;
}.

(** The writes of the reuse branch for the item, one per destructured key
    or one for the item name. *)
Fixpoint key_writes (W : World) (n : node) (it : value) (cloned : bool)
  (ks : list string) : completion (list effect) :=
  match ks with
  | [] => Normal []
  | k :: rest =>
      match js_get W it k with
      | Abrupt e => Abrupt e
      | Normal v =>
          match key_writes W n it cloned rest with
          | Abrupt e => Abrupt e
          | Normal l => Normal (WriteItem n k v cloned :: l)
          end
      end
  end.

(** [Object.fromEntries(keys.map(...))] of the create branch: the entries
    and the errors logged on the way. *)
Fixpoint destructure (W : World) (b : each_block) (it : value)
  (ks : list string) : completion (list (string * value) * list effect) :=
  match ks with
  | [] => Normal ([], [])
  | k :: rest =>
      match js_in W k it with
      | Abrupt e => Abrupt e
      | Normal present =>
          match js_get W it k with
          | Abrupt e => Abrupt e
          | Normal v =>
              match destructure W b it rest with
              | Abrupt e => Abrupt e
              | Normal (entries, logs) =>
                  Normal ((k, v) :: entries,
                          ((if present then []
                            else [ConsoleError
                                    ("Error: undefined reading " ++ k
                                     ++ " at: " ++ expression b)])
                           ++ logs)%list)
              end
          end
      end
  end.

Definition push (r : rendered) (ls : loop_state) (st : each_state)
  (m : node_map) : loop_state :=
  {| oldNodeMap := m; newDomNodes := newDomNodes ls ++ [r]; world := st |}.

(** The body of the second [forEach], for the item [it] at position [i];
    [total] is [newItems.length]. *)
Definition reconcile_item (W : World) (b : each_block) (total : nat)
  (it : value) (i : nat) (ls : loop_state) : outcome loop_state :=
  let st := world ls in
  match key_of W (hidden_keys st) it with
  | Abrupt e => Throw e ls
  | Normal key =>
      match map_get (oldNodeMap ls) key with
      | Some old =>
          (* reuse *)
          let n := node_of old in
          let index_writes :=
            if bool_decide (index (data old) ≠ i)
            then [WriteIndex n (indexName b) i] else [] in
          let cloned :=
            match typeof (item (data old)) with TObject => true | _ => false end in
          let st1 := with_effects index_writes st in
          match
            if cloned && negb (structuredClone_ok W it)
            then Abrupt DataCloneError
            else
              match keys b with
              | Some ks => key_writes W n it cloned ks
              | None => Normal [WriteItem n (itemName b) it cloned]
              end
          with
          | Abrupt e =>
              Throw e {| oldNodeMap := oldNodeMap ls;
                         newDomNodes := newDomNodes ls; world := st1 |}
          | Normal writes =>
              Return
                (push {| node_of := n;
                         data := {| item := it; index := i;
                                    _dom_master_key := key |} |}
                      ls (with_effects writes st1)
                      (map_delete (oldNodeMap ls) key))
          end
      | None =>
          if bool_decide (total ≠ length (domNodes st)) then
            (* create *)
            match
              match keys b with
              | Some ks =>
                  match destructure W b it ks with
                  | Abrupt e => Abrupt e
                  | Normal (entries, logs) =>
                      Normal ((entries
                               ++ [(indexName b, VNum (Z.of_nat i))])%list,
                              logs)
                  end
              | None =>
                  Normal ([(itemName b, it);
                           (indexName b, VNum (Z.of_nat i))], [])
              end
            with
            | Abrupt e => Throw e ls
            | Normal (localContext, logs) =>
                let n := next_node st in
                let st1 :=
                  {| dom := dom st; domNodes := domNodes st;
                     hidden_keys := hidden_keys st; next_node := S n;
                     uniid_calls := uniid_calls st;
                     effects :=
                       (effects st ++ logs
                        ++ [NewScope n localContext; CloneNode n]
                        ++ (if nested_each b
                            then [ConsoleWarn "for:each -> nested statements"]
                            else [])
                        ++ [ParseEachBlocks n; ParseIfStatements n;
                            ParseNode n])%list |} in
                Return
                  (push {| node_of := n;
                           data := {| item := it; index := i;
                                      _dom_master_key := key |} |}
                        ls st1 (oldNodeMap ls))
            end
          else Return ls
      end
  end.

Fixpoint reconcile_from (W : World) (b : each_block) (total : nat)
  (items : list value) (i : nat) (ls : loop_state) : outcome loop_state :=
  match items with
  | [] => Return ls
  | it :: rest =>
      match reconcile_item W b total it i ls with
      | Return ls' => reconcile_from W b total rest (S i) ls'
      | Throw e ls' => Throw e ls'
      end
  end.

(** [oldNodeMap.forEach(({ node }) => parentNode.removeChild(node))] *)
Fixpoint remove_old (m : node_map) (t : tree) : outcome tree :=
  match m with
  | [] => Return t
  | (_, r) :: rest =>
      match parent_removeChild (node_of r) t with
      | Return t' => remove_old rest t'
      | Throw e t' => Throw e t'
      end
  end.

(** The end of [update]: the nodes of [newDomNodes] go to a new fragment,
    which is inserted after the start marker when it is not empty. *)
Definition place (b : each_block) (records : list rendered) (t : tree)
  : outcome tree :=
  let t1 :=
    foldl (fun t r => fragment_appendChild (node_of r) t)
      {| childNodes := childNodes t; fragment := [] |} records in
  match fragment t1 with
  | [] => Return t1
  | _ => parent_insertBefore (nextSibling (blockStart b) t1) t1
  end.

(** The array to render: [getValueFromExpression(...).value || []], which
    is never falsy; the error is logged for a value that is not an array,
    and such a value has no [forEach]. *)
Definition newItems_of (W : World) (b : each_block) (vars : variables)
  (st : each_state) : outcome each_state * list value :=
  match getValueFromExpression W vars (arrayName b) with
  | Abrupt e => (Throw e st, [])
  | Normal res =>
      let v := value_of res in
      if truthy v then
        match v with
        | VObj r =>
            match arrays W !! r with
            | Some items => (Return st, items)
            | None =>
                (Throw TypeError
                   (with_effects
                      [ConsoleError (arrayName b ++ ": is not an array at "
                                     ++ expression b)] st), [])
            end
        | _ =>
            (Throw TypeError
               (with_effects
                  [ConsoleError (arrayName b ++ ": is not an array at "
                                 ++ expression b)] st), [])
        end
      else (Return st, [])
  end.

(** [update()] *)
Definition update (W : World) (b : each_block) (vars : variables)
  (st : each_state) : outcome each_state :=
  match newItems_of W b vars st with
  | (Throw e st', _) => Throw e st'
  | (Return st0, newItems) =>
      match mint_all W newItems st0 with
      | Throw e st' => Throw e st'
      | Return st1 =>
          match
            reconcile_from W b (length newItems) newItems 0
              {| oldNodeMap := map_of (domNodes st1); newDomNodes := [];
                 world := st1 |}
          with
          | Throw e ls => Throw e (world ls)
          | Return ls =>
              let st2 := world ls in
              match remove_old (oldNodeMap ls) (dom st2) with
              | Throw e t => Throw e (with_dom t st2)
              | Return t =>
                  match place b (newDomNodes ls) t with
                  | Throw e t' => Throw e (with_dom t' st2)
                  | Return t' =>
                      Return
                        {| dom := t'; domNodes := newDomNodes ls;
                           hidden_keys := hidden_keys st2;
                           next_node := next_node st2;
                           uniid_calls := uniid_calls st2;
                           effects := effects st2 |}
                  end
              end
          end
      end
  end.

End WithHost.

End EachBlock.

(** ** Classes of characters used in the statements *)

Module Chars.
Import Text.

(** A character that does not separate the parts of a path. *)
Abbreviation plain c :=
  (is_dot c = false ∧ is_lbracket c = false ∧ is_rbracket c = false).

(** A character of a key that can be registered: a letter, [_] or [$]. *)
Abbreviation name_char c := (is_token_char c = true ∧ is_dot c = false).

End Chars.

(** ** [setAttributes] *)

Module Attributes.

(** What [setAttributes] touches of an element: its attributes, and, for
    an input element, the [value] property once it has been set. *)
Record element : Type := {
  attributes : gmap string string;
  isInput : bool;                    (* element instanceof HTMLInputElement *)
  value_property : option string;
}.

Definition setAttribute (name v : string) (el : element) : element :=
  {| attributes := <[name := v]> (attributes el); isInput := isInput el;
     value_property := value_property el |}.

Definition removeAttribute (name : string) (el : element) : element :=
  {| attributes := delete name (attributes el); isInput := isInput el;
     value_property := value_property el |}.

(** [setAttributes(element, attrName, value)], for the text [value] that
    [replaceVariables] returns. *)
Definition setAttributes (el : element) (attrName v : string) : element :=
  if bool_decide (v = "true") then setAttribute attrName "" el
  else if bool_decide (v = "false") || bool_decide (v = "null")
          || bool_decide (v = "undefined")
  then removeAttribute attrName el
  else if bool_decide (attrName = "value") && isInput el then
    {| attributes := attributes el; isInput := isInput el;
       value_property := Some v |}
  else if bool_decide (attrName = "style") then setAttribute "style" v el
  else if bool_decide (attrName = "class") then setAttribute "class" v el
  else setAttribute attrName v el.

(** The texts that stand for a boolean attribute. *)
Definition literals : list string := ["true"; "false"; "null"; "undefined"].

End Attributes.

(** ** [replaceVariables] and the state of [braceRegex] *)

Module Interpolation.
Import Text.

Section WithHost.

(** The text the host puts for an expression: the value of
    [evaluateExpression(expression, variables)], converted to a string. *)
Variable render : string → string.

(** [template.replace(braceRegex, ...)]: every match is replaced by the
    text of its inner part, trimmed; [skip] counts the characters of a
    match still to be dropped. *)
Fixpoint replace_from (skip : nat) (s : chars) : chars :=
  match s with
  | [] => []
  | c :: rest =>
      match skip with
      | S k => replace_from k rest
      | O =>
          if is_lbrace c then
            match brace_length rest with
            | Some n =>
                (of_string (render (to_string (trim (take (pred n) rest))))
                 ++ replace_from n rest)%list
            | None => c :: replace_from 0 rest
            end
          else c :: replace_from 0 rest
      end
  end.

(** [replaceVariables(template, variables)] *)
Definition replaceVariables (template : string) : string :=
  to_string (replace_from 0 (of_string template)).

End WithHost.

(** The end of the first match of [braceRegex] in [s], whose first
    character is at the index [pos] of the whole string. *)
Fixpoint find_brace (s : chars) (pos : nat) : option nat :=
  match s with
  | [] => None
  | c :: rest =>
      if is_lbrace c then
        match brace_length rest with
        | Some n => Some (pos + 1 + n)%nat
        | None => find_brace rest (S pos)
        end
      else find_brace rest (S pos)
  end.

(** [braceRegex.test(s)]: the regular expression has the flag [g], so the
    search starts at its [lastIndex]; the result comes with the new
    [lastIndex], the end of the match, or 0 when there is none. *)
Definition test (lastIndex : nat) (s : chars) : bool * nat :=
  if (length s <? lastIndex)%nat then (false, 0%nat)
  else
    match find_brace (drop lastIndex s) lastIndex with
    | Some e => (true, e)
    | None => (false, 0%nat)
    end.

(** The guard of [parseNode] for a text node or an attribute: the
    template is bound when the test finds a match, and [update()], which
    calls [replace], then leaves [lastIndex] at 0. *)
Definition binds (lastIndex : nat) (template : string) : bool * nat :=
  match test lastIndex (of_string template) with
  | (true, _) => (true, 0%nat)
  | (false, l) => (false, l)
  end.

End Interpolation.

(** ** [getBlock] and the extraction loop of [parseIfStatements] *)

Module IfParser.
Import Text Dom.

(** A sibling as [getBlock] sees it: its identity and, for a text node,
    its [nodeValue]. *)
Record dnode : Type := {
  id : node;
  nodeValue : option string;   (* [None] when nodeType is not TEXT_NODE *)
}.

(** The guard of a start marker: the characters up to the first closing
    brace, which has to come before the end of the line. *)
Fixpoint until_rbrace (s : chars) : option chars :=
  match s with
  | [] => None
  | c :: rest =>
      if is_rbrace c then Some []
      else if is_line_terminator c then None
      else (fun l => c :: l) <$> until_rbrace rest
  end.

Definition start_marker : chars := of_string "{start:if ".

(** [s.match(start_if)[1]], [None] when [start_if.test(s)] is false. *)
Fixpoint start_if_match (s : chars) : option chars :=
  match s with
  | [] => None
  | c :: rest =>
      if starts_with start_marker s then
        match until_rbrace (drop (length start_marker) s) with
        | Some cond => Some cond
        | None => start_if_match rest
        end
      else start_if_match rest
  end.

Definition is_start (n : dnode) : bool :=
  match nodeValue n with
  | Some v => bool_decide (is_Some (start_if_match (of_string v)))
  | None => false
  end.

Definition is_end (n : dnode) : bool :=
  match nodeValue n with
  | Some v => contains (of_string "{end:if}") (of_string v)
  | None => false
  end.

Definition is_else (n : dnode) : bool :=
  match nodeValue n with
  | Some v => contains (of_string "{:else}") (of_string v)
  | None => false
  end.

(** The inner loop: the nodes before the first end marker, and the rest,
    which starts with that marker. *)
Fixpoint scan_end (nodes : list dnode) : list dnode * list dnode :=
  match nodes with
  | [] => ([], [])
  | n :: rest =>
      if is_end n then ([], nodes)
      else let '(inside, tail) := scan_end rest in (n :: inside, tail)
  end.

(** The two slices: the nodes before the first else marker, and those
    after it; the marker is in neither. *)
Fixpoint split_else (inside : list dnode) : list dnode * list dnode :=
  match inside with
  | [] => ([], [])
  | n :: rest =>
      if is_else n then ([], rest)
      else let '(a, b) := split_else rest in (n :: a, b)
  end.

(** What [getBlock] returns. *)
Record extracted : Type := {
  ifBlock : list dnode;
  elseBlock : list dnode;
  blockStart : dnode;
  condition : string;
}.

(** [getBlock(nodes)]: the block of the first start marker, and the array
    [nodes] after its [splice]; [None] for [null]. *)
Fixpoint getBlock (nodes : list dnode) : option (extracted * list dnode) :=
  match nodes with
  | [] => None
  | n :: rest =>
      if is_start n then
        let '(inside, tail) := scan_end rest in
        let '(a, b) := split_else inside in
        Some ({| ifBlock := a; elseBlock := b; blockStart := n;
                 condition :=
                   to_string
                     (default []
                        (start_if_match
                           (of_string (default "" (nodeValue n))))) |},
              tail)
      else
        match getBlock rest with
        | Some (b, remaining) => Some (b, n :: remaining)
        | None => None
        end
  end.

(** The loop of [parseIfStatements] that fills [blocks]; every round
    removes a node, so that the length of the list is fuel enough. *)
Fixpoint extract (fuel : nat) (nodes : list dnode) : list extracted :=
  match fuel with
  | O => []
  | S f =>
      match nodes with
      | [] => []
      | _ =>
          match getBlock nodes with
          | Some (b, remaining) => b :: extract f remaining
          | None => []
          end
      end
  end.

Definition extract_blocks (nodes : list dnode) : list extracted :=
  extract (length nodes) nodes.

(** The block the [update] closure works on. *)
Definition to_block (b : extracted) : IfBlock.block :=
  {| IfBlock.ifBlock := id <$> ifBlock b;
     IfBlock.elseBlock := id <$> elseBlock b;
     IfBlock.blockStart := id (blockStart b) |}.

(** The nodes a block owns: its start marker and its two branches. *)
Definition nodes_of (b : extracted) : list node :=
  (id (blockStart b) :: (id <$> ifBlock b) ++ (id <$> elseBlock b))%list.

End IfParser.

(** ** A conditional block over time *)

Module IfRun.
Import Dom IfBlock.

(** The calls of [update()] that follow the bind, one for each value the
    guard takes. *)
Fixpoint run (b : block) (evaluations : list value) (st : block_state)
  : outcome block_state :=
  match evaluations with
  | [] => Return st
  | ev :: rest =>
      match update b ev st with
      | Return st' => run b rest st'
      | Throw e st' => Throw e st'
      end
  end.

(** The shape of the tree between two updates: the fragment is empty and
    the branch that the memo selects comes just after the start marker. *)
Definition laid_out (b : block) (pre post : list node) (st : block_state)
  : Prop :=
  fragment (dom st) = []
  ∧ childNodes (dom st)
    = (pre ++ blockStart b :: selected b (lastEval st) ++ post)%list.

End IfRun.

(** ** The event attributes of [parseNode] *)

Module Handlers.
Import Text.












End Handlers.

(** ** [each_prototype.js] *)

Module EachPrototype.

(** [join("")] puts the empty text for [undefined] and [null]; [None] is
    such a result of the callback. *)
Definition joined (r : option string) : string := default "" r.

Fixpoint each_from (callback : value → nat → option string)
  (items : list value) (i : nat) : string :=
  match items with
  | [] => ""
  | x :: rest => joined (callback x i) ++ each_from callback rest (S i)
  end.

(** [array.each(callback)]: [this.map(callback).join("")] *)
Definition each (callback : value → nat → option string)
  (items : list value) : string :=
  each_from callback items 0.

(** The default callback [() => {}]. *)
Definition default_callback : value → nat → option string :=
  fun _ _ => None.

End EachPrototype.

(** ** What a render of primitives has to give *)

Module EachSpec.
Import Dom EachBlock.





Section WithHost.

Variable uniid : nat → string.


End WithHost.


End EachSpec.

(** ** Concrete worlds used in the statements below *)

Module Examples.
Import Store Heap Registrar.

(** A store whose state has the key [a], bound to an object with the
    fields [x] and [y]; the store is the manager [0]. *)
Definition one_object_world : World :=
  {| objects := {[ 5%nat := {[ "x" := VNum 1; "y" := VNum 2 ]} ]};
     arrays := ∅;
     managers := {[ 0%nat := Store.new {[ "a" := VObj 5 ]} ]} |}.

(** A store with the keys [a] and [b]; the store is the manager [0]. *)
Definition two_keys_world : World :=
  {| objects := ∅; arrays := ∅;
     managers := {[ 0%nat := Store.new {[ "a" := VNum 1; "b" := VNum 2 ]} ]} |}.

(** A store with the key [step] only; the store is the manager [0]. *)
Definition step_world : World :=
  {| objects := ∅; arrays := ∅;
     managers := {[ 0%nat := Store.new {[ "step" := VNum 2 ]} ]} |}.

(** A list block [{for:each todo of todos}] whose start marker is the
    node [0]. *)
Definition list_block : EachBlock.each_block :=
  {| EachBlock.itemName := "todo"; EachBlock.indexName := "index";
     EachBlock.arrayName := "todos"; EachBlock.keys := None;
     EachBlock.expression := "{for:each todo of todos}";
     EachBlock.blockStart := 0%nat; EachBlock.nested_each := false |}.

(** The state key [todos] bound to the value [v]; the store is the
    manager [0], and the reference [1] is the array [items]. *)
Definition todos_world (v : value) (items : list value) : World :=
  {| objects := {[ 11%nat := {[ "id" := VNum 1 ]};
                   12%nat := {[ "id" := VNum 2 ]} ]};
     arrays := {[ 1%nat := items ]};
     managers := {[ 0%nat := Store.new {[ "todos" := v ]} ]} |}.

(** The same array of the objects [12] and [11], each of which now has a
    method [toggle]. *)
Definition methods_world : World :=
  {| objects := {[ 11%nat := {[ "id" := VNum 1; "toggle" := VFun 7 ]};
                   12%nat := {[ "id" := VNum 2; "toggle" := VFun 7 ]} ]};
     arrays := {[ 1%nat := [VObj 12; VObj 11] ]};
     managers := {[ 0%nat := Store.new {[ "todos" := VObj 1 ]} ]} |}.

(** Before the first render: the marker [0], the template element [1] and
    a following node [5]. *)
Definition unrendered : EachBlock.each_state :=
  {| EachBlock.dom := {| Dom.childNodes := [0; 1; 5]%nat;
                         Dom.fragment := [] |};
     EachBlock.domNodes := []; EachBlock.hidden_keys := ∅;
     EachBlock.next_node := 20%nat; EachBlock.uniid_calls := 0%nat;
     EachBlock.effects := [] |}.

(** After the render of the array of the objects [11] and [12], as the
    nodes [21] and [22]. *)
Definition rendered_twice : EachBlock.each_state :=
  {| EachBlock.dom := {| Dom.childNodes := [0; 21; 22; 5]%nat;
                         Dom.fragment := [] |};
     EachBlock.domNodes :=
       [ {| EachBlock.node_of := 21%nat;
            EachBlock.data :=
              {| EachBlock.item := VObj 11; EachBlock.index := 0%nat;
                 EachBlock._dom_master_key := VStr "k1" |} |};
         {| EachBlock.node_of := 22%nat;
            EachBlock.data :=
              {| EachBlock.item := VObj 12; EachBlock.index := 1%nat;
                 EachBlock._dom_master_key := VStr "k2" |} |} ];
     EachBlock.hidden_keys := {[ 11%nat := VStr "k1"; 12%nat := VStr "k2" ]};
     EachBlock.next_node := 23%nat; EachBlock.uniid_calls := 2%nat;
     EachBlock.effects := [] |}.

(** After the render of an array that holds the object [11] twice, around
    the object [12], as the nodes [21], [22] and [23]. *)
Definition rendered_repeated : EachBlock.each_state :=
  {| EachBlock.dom := {| Dom.childNodes := [0; 21; 22; 23; 5]%nat;
                         Dom.fragment := [] |};
     EachBlock.domNodes :=
       [ {| EachBlock.node_of := 21%nat;
            EachBlock.data :=
              {| EachBlock.item := VObj 11; EachBlock.index := 0%nat;
                 EachBlock._dom_master_key := VStr "k1" |} |};
         {| EachBlock.node_of := 22%nat;
            EachBlock.data :=
              {| EachBlock.item := VObj 12; EachBlock.index := 1%nat;
                 EachBlock._dom_master_key := VStr "k2" |} |};
         {| EachBlock.node_of := 23%nat;
            EachBlock.data :=
              {| EachBlock.item := VObj 11; EachBlock.index := 2%nat;
                 EachBlock._dom_master_key := VStr "k1" |} |} ];
     EachBlock.hidden_keys := {[ 11%nat := VStr "k1"; 12%nat := VStr "k2" ]};
     EachBlock.next_node := 24%nat; EachBlock.uniid_calls := 2%nat;
     EachBlock.effects := [] |}.

(** After the render of the array [[3]], as the node [21]. *)
Definition rendered_three : EachBlock.each_state :=
  {| EachBlock.dom := {| Dom.childNodes := [0; 21; 5]%nat;
                         Dom.fragment := [] |};
     EachBlock.domNodes :=
       [ {| EachBlock.node_of := 21%nat;
            EachBlock.data :=
              {| EachBlock.item := VNum 3; EachBlock.index := 0%nat;
                 EachBlock._dom_master_key := VNum 3 |} |} ];
     EachBlock.hidden_keys := ∅;
     EachBlock.next_node := 22%nat; EachBlock.uniid_calls := 0%nat;
     EachBlock.effects := [] |}.

End Examples.

(** * Properties *)

Local Open Scope list_scope.
Local Open Scope nat_scope.

(** ** Values *)

Module JSFacts.


Lemma strict_eq_true (a b : value) : strict_eq a b = true → a = b.
Proof.
  destruct a, b; simpl; try done.
  - intros H. apply bool_decide_eq_true in H. by subst.
  - intros H. apply Z.eqb_eq in H. by subst.
  - intros H. apply bool_decide_eq_true in H. by subst.
  - intros H. apply Nat.eqb_eq in H. by subst.
  - intros H. apply Nat.eqb_eq in H. by subst.
Qed.

Lemma strict_eq_truthy (a b : value) :
  strict_eq a b = true → truthy a = truthy b.
Proof. intros H. by rewrite (strict_eq_true _ _ H). Qed.

Lemma has_prop_true (o : gmap string value) (k : string) :
  has_prop o k = true ↔ is_Some (o !! k).
Proof. unfold has_prop. apply bool_decide_eq_true. Qed.

Lemma has_prop_false (o : gmap string value) (k : string) :
  has_prop o k = false ↔ o !! k = None.
Proof.
  unfold has_prop. rewrite bool_decide_eq_false. symmetry. apply eq_None_not_Some.
Qed.

End JSFacts.

(** ** The store *)

Module StoreFacts.
Import Store JSFacts.

Lemma call_all_fields (cs : list cb) (s : ReactiveState) :
  call_all cs s =
  {| state := state s; subscribers := subscribers s;
     expressions := expressions s; next_dep := next_dep s;
     fired := fired s ++ cs |}.
Proof.
  unfold call_all. revert s.
  induction cs as [|c cs IH]; intros s; simpl.
  - destruct s; simpl. by rewrite app_nil_r.
  - rewrite IH. simpl. by rewrite <- app_assoc.
Qed.

Lemma checkExpression_loop (key : string) (es : list dependencies)
  (s : ReactiveState) :
  foldl (fun acc d =>
           if includes (variables d) key then call (callback d) acc else acc)
        s es =
  {| state := state s; subscribers := subscribers s;
     expressions := expressions s; next_dep := next_dep s;
     fired := fired s ++ expression_callbacks key es |}.
Proof.
  revert s. induction es as [|d es IH]; intros s; simpl.
  - destruct s; simpl. by rewrite app_nil_r.
  - rewrite IH. unfold expression_callbacks. rewrite filter_cons.
    destruct (decide (includes (variables d) key = true)) as [E|E].
    + rewrite E. simpl. by rewrite <- app_assoc.
    + apply not_true_is_false in E. rewrite E. done.
Qed.

(** What a write that changes the stored value does. *)
Lemma proxy_set_changed (key : string) (v : value) (s : ReactiveState) :
  strict_neq (get_prop (state s) key) v = true →
  proxy_set key v s =
  {| state := <[key := v]> (state s); subscribers := subscribers s;
     expressions := expressions s; next_dep := next_dep s;
     fired := fired s
              ++ default [] (subscribers_get (subscribers s) key)
              ++ expression_callbacks key (expressions s) |}.
Proof.
  intros Hne. unfold proxy_set. rewrite Hne.
  unfold checkExpression, notify, with_state. simpl.
  destruct (subscribers_get (subscribers s) key) as [set|] eqn:E; simpl.
  - rewrite call_all_fields. simpl. rewrite checkExpression_loop. simpl.
    by rewrite <- app_assoc.
  - rewrite checkExpression_loop. simpl. done.
Qed.


Lemma addExpression_unsubscribe_id (d : dependencies) (s : ReactiveState) :
  addExpression_unsubscribe d s = s.
Proof. reflexivity. Qed.

(** After [addExpression(keys, c)], a write that changes one of [keys]
    calls [c]. *)
Lemma addExpression_fires (keys : list string) (c : cb) (key : string)
  (v : value) (s : ReactiveState) :
  key ∈ keys →
  strict_neq (get_prop (state s) key) v = true →
  let s' := (addExpression keys c s).2 in
  ∃ called, fired (proxy_set key v s') = fired s' ++ called ∧ c ∈ called.
Proof.
  intros Hin Hne s'.
  rewrite (proxy_set_changed key v s') by exact Hne.
  eexists. split; [reflexivity|].
  apply elem_of_app. right. simpl. unfold expression_callbacks.
  apply list_elem_of_fmap. eexists {| dep_id := _; variables := keys |}.
  split; [reflexivity|].
  apply list_elem_of_filter. split.
  - simpl. unfold includes. apply existsb_exists. exists key.
    split; [by apply list_elem_of_In | by apply bool_decide_eq_true].
  - apply elem_of_app. right. apply list_elem_of_singleton. reflexivity.
Qed.




(** C5, at a concrete store: the handle returned by [addExpression] copies
    a slice of the list and drops it, so that after [unsubscribe()] a
    change of the key still calls the callback. *)
Theorem addExpression_unsubscribe_keeps_firing :
  let r := addExpression ["a"] 7%nat (Store.new {[ "a" := VNum 1 ]}) in
  let s2 := addExpression_unsubscribe r.1 r.2 in
  expressions s2 = [r.1]
  ∧ fired (proxy_set "a" (VNum 2) s2) = [7%nat].
Proof. split; vm_compute; reflexivity. Qed.

End StoreFacts.

(** ** Scopes *)

Module ScopeFacts.
Import Store Scope JSFacts StoreFacts.





End ScopeFacts.

(** ** Dependency registration and argument evaluation *)

Module RegistrarFacts.
Import Store Heap Text Registrar Evaluator Examples.

(** C4, at the template [{a.x + a.y}]: the expression refers to the one
    state key [a], but the tokens are made unique before they are cut down
    to their roots, so that the list of keys is [a; a] and the callback is
    registered as a multi-key expression, not as a single-key
    subscription. *)
Theorem registerDependencies_same_root_twice :
  getTokensFromExpression one_object_world "{a.x + a.y}" (StoreProxy 0)
    (VObj 0) = Normal ["a"; "a"]
  ∧ ∃ W', registerDependencies one_object_world "{a.x + a.y}"
            (StoreProxy 0) 7%nat (VObj 0) = Return W'
          ∧ subscribers (manager W' 0) = []
          ∧ expressions (manager W' 0)
            = [{| dep_id := 0; Store.variables := ["a"; "a"];
                  callback := 7%nat |}].
Proof.
  split; [vm_compute; reflexivity|].
  eexists. split; [vm_compute; reflexivity|].
  split; vm_compute; reflexivity.
Qed.

(** C1, at the event argument [user.name] in a scope without [user]:
    [getArgumentValue] applies [in] to [undefined], which is a TypeError
    that nothing catches; nothing is logged. *)
Theorem getArgumentValue_throws_on_missing_object
  (parsePrimitive : string → completion value)
  (evaluateExpression : World → string → variables → value) :
  getArgumentValue parsePrimitive evaluateExpression step_world "user.name"
    (StoreProxy 0) = (Abrupt TypeError, []).
Proof. vm_compute. reflexivity. Qed.

(** A for:each marker that no element follows, as in
    [<ul>{for:each x of xs}</ul>]: the check of the closing marker reads a
    property of [null], which is a TypeError, before the test of
    [eachContent] that would log the empty block. *)
Lemma closing_check_throws_without_element (expression : string) :
  EachBlock.closing_check [] expression = Abrupt TypeError
  ∧ EachBlock.closing_check [EachBlock.TextNode "{end:each}"] expression
    = Abrupt TypeError
  ∧ EachBlock.closing_check [EachBlock.ElementNode 1] expression
    = Abrupt TypeError.
Proof. repeat split. Qed.

(** The same argument is evaluated when the object is there. *)
Lemma getArgumentValue_evaluates_present_path
  (parsePrimitive : string → completion value)
  (evaluateExpression : World → string → variables → value) :
  getArgumentValue parsePrimitive evaluateExpression one_object_world "a.x"
    (StoreProxy 0)
  = (Normal (evaluateExpression one_object_world "a.x" (StoreProxy 0)), []).
Proof. vm_compute. reflexivity. Qed.

(** With distinct keys the routing is as intended: one key gives a
    single-key subscription, two keys give one multi-key expression, which
    a change of either key fires. *)
Lemma registerDependencies_routes_distinct_keys :
  (∃ W', registerDependencies two_keys_world "{a}" (StoreProxy 0) 7
           (VObj 0) = Return W'
         ∧ subscribers (manager W' 0) = [("a", [7])]
         ∧ expressions (manager W' 0) = [])
  ∧ (∃ W', registerDependencies two_keys_world "{a + b}" (StoreProxy 0) 7
             (VObj 0) = Return W'
           ∧ subscribers (manager W' 0) = []
           ∧ Store.variables <$> expressions (manager W' 0) = [["a"; "b"]]
           ∧ fired (proxy_set "a" (VNum 5) (manager W' 0)) = [7]
           ∧ fired (proxy_set "b" (VNum 5) (manager W' 0)) = [7]).
Proof.
  split; eexists; (split; [vm_compute; reflexivity|]);
    repeat split; vm_compute; reflexivity.
Qed.

(** In a scope, an expression over a local and a global key is added to
    the global store, and the assignment of the handle to the undeclared
    name then throws. *)
Lemma registerDependencies_scope_throws :
  let g := Store.new {[ "count" := VNum 0 ]} in
  let W := {| objects := {[ 9%nat := state g ]}; arrays := ∅;
              managers := {[ 0%nat := g; 1%nat := Store.new {[ "item" := VNum 1 ]} ]} |} in
  let sc := Scope.createLocalProxy {[ "item" := VNum 1 ]} (VObj 9) (VObj 0) in
  ∃ W', registerDependencies W "{item + count}" (ScopeProxy sc 0) 7%nat
          (VObj 1) = Throw ReferenceError W'
        ∧ Store.variables <$> expressions (manager W' 0)
          = [["item"; "count"]].
Proof. eexists. split; vm_compute; reflexivity. Qed.

End RegistrarFacts.

(** ** The tree operations *)

Module DomFacts.
Import Dom.

Lemma outside_without (n : node) (ns l : list node) :
  outside ns (without n l) = outside (n :: ns) l.
Proof.
  unfold outside, without. rewrite list_filter_filter.
  apply list_filter_iff. intros x. rewrite not_elem_of_cons. tauto.
Qed.

Lemma outside_outside (ns ms l : list node) :
  outside ms (outside ns l) = outside (ns ++ ms) l.
Proof.
  unfold outside. rewrite list_filter_filter.
  apply list_filter_iff. intros x. rewrite elem_of_app. tauto.
Qed.

Lemma outside_app (ns l1 l2 : list node) :
  outside ns (l1 ++ l2) = outside ns l1 ++ outside ns l2.
Proof. apply filter_app. Qed.

Lemma outside_keep (ns l : list node) :
  (∀ x, x ∈ l → x ∉ ns) → outside ns l = l.
Proof.
  induction l as [|x l IH]; intros H; [done|].
  unfold outside. rewrite filter_cons_True by (apply H; left).
  f_equal. apply IH. intros y Hy. apply H. by right.
Qed.

Lemma outside_nil (l : list node) : outside [] l = l.
Proof. apply outside_keep. intros x _. apply not_elem_of_nil. Qed.

Lemma outside_cons_keep (ns l : list node) (x : node) :
  x ∉ ns → outside ns (x :: l) = x :: outside ns l.
Proof. intros H. unfold outside. by rewrite filter_cons_True. Qed.

Lemma outside_idem (ns l : list node) :
  outside ns (outside ns l) = outside ns l.
Proof.
  unfold outside. rewrite list_filter_filter.
  apply list_filter_iff. tauto.
Qed.

Lemma outside_drop (ns l : list node) :
  (∀ x, x ∈ l → x ∈ ns) → outside ns l = [].
Proof.
  induction l as [|x l IH]; intros H; [done|].
  unfold outside. rewrite filter_cons_False.
  - apply IH. intros y Hy. apply H. by right.
  - intros Hx. apply Hx, H. left.
Qed.

Lemma elem_of_outside (ns l : list node) (x : node) :
  x ∈ outside ns l ↔ (x ∉ ns) ∧ x ∈ l.
Proof. unfold outside. by rewrite list_elem_of_filter. Qed.

(** Moving a list of distinct nodes to the fragment, one by one. *)
Lemma appendChild_all (ns : list node) (t : tree) :
  NoDup ns →
  foldl (fun t n => fragment_appendChild n t) t ns =
  {| childNodes := outside ns (childNodes t);
     fragment := outside ns (fragment t) ++ ns |}.
Proof.
  revert t. induction ns as [|n ns IH]; intros t Hnd; simpl.
  - destruct t as [cs fr]; simpl. by rewrite !outside_nil, app_nil_r.
  - apply NoDup_cons in Hnd as [Hn Hnd]. rewrite (IH _ Hnd). simpl.
    rewrite outside_without, outside_app, outside_without.
    rewrite (outside_keep ns [n]).
    + by rewrite <- app_assoc.
    + intros x Hx. apply list_elem_of_singleton in Hx. by subst.
Qed.

(** Removing a list of nodes, one by one. *)
Lemma remove_all (ns : list node) (t : tree) :
  foldl (fun t n => node_remove n t) t ns =
  {| childNodes := outside ns (childNodes t);
     fragment := outside ns (fragment t) |}.
Proof.
  revert t. induction ns as [|n ns IH]; intros t; simpl.
  - destruct t as [cs fr]; simpl. by rewrite !outside_nil.
  - rewrite IH. simpl. by rewrite !outside_without.
Qed.

Lemma next_in_middle (pre post : list node) (b : node) :
  b ∉ pre → next_in (pre ++ b :: post) b = head post.
Proof.
  induction pre as [|x pre IH]; intros Hb; simpl.
  - by rewrite bool_decide_eq_true_2.
  - apply not_elem_of_cons in Hb as [Hne Hb].
    rewrite bool_decide_eq_false_2 by done. by apply IH.
Qed.

Lemma insert_before_middle (pre post new : list node) (r : node) :
  r ∉ pre → insert_before r new (pre ++ r :: post) = pre ++ new ++ r :: post.
Proof.
  induction pre as [|x pre IH]; intros Hr; simpl.
  - by rewrite bool_decide_eq_true_2.
  - apply not_elem_of_cons in Hr as [Hne Hr].
    rewrite bool_decide_eq_false_2 by done. f_equal. by apply IH.
Qed.

(** Inserting the fragment before the next sibling of a child puts its
    nodes just after that child. *)
Lemma insert_after (pre post new : list node) (b : node) :
  NoDup (pre ++ b :: post) →
  let t := {| childNodes := pre ++ b :: post; fragment := new |} in
  parent_insertBefore (nextSibling b t) t =
  Return {| childNodes := pre ++ b :: new ++ post; fragment := [] |}.
Proof.
  intros Hnd t. apply NoDup_app in Hnd as (Hpre & Hdisj & Hpost).
  apply NoDup_cons in Hpost as [Hb Hpost].
  assert (b ∉ pre) as Hbpre.
  { intros Hin. apply (Hdisj _ Hin). left. }
  unfold nextSibling, t. simpl.
  rewrite bool_decide_eq_true_2
    by (apply elem_of_app; right; left).
  rewrite next_in_middle by done.
  destruct post as [|x post]; simpl.
  - rewrite app_nil_r. by rewrite <- app_assoc.
  - rewrite bool_decide_eq_true_2
      by (apply elem_of_app; right; right; left).
    f_equal. f_equal.
    replace (pre ++ b :: x :: post) with ((pre ++ [b]) ++ x :: post)
      by (by rewrite <- app_assoc).
    rewrite insert_before_middle.
    + by rewrite <- app_assoc.
    + intros Hin. apply elem_of_app in Hin as [Hin|Hin].
      * apply (Hdisj _ Hin). right. left.
      * apply list_elem_of_singleton in Hin. subst.
        apply Hb. left.
Qed.

End DomFacts.

(** ** Conditional blocks *)

Module IfBlockFacts.
Import Dom IfBlock DomFacts JSFacts.

Lemma outside_same (ns ms l : list node) :
  (∀ x, x ∈ ns ↔ x ∈ ms) → outside ns l = outside ms l.
Proof.
  intros H. unfold outside. apply list_filter_iff. intros x.
  by rewrite H.
Qed.

(** The patch done by [update] when the guard value differs from the
    memo: the nodes of both branches leave the child list and the selected
    branch is put just after the start marker. *)
Lemma update_changed (b : block) (evaluation : value) (st : block_state)
  (pre post : list node) :
  strict_eq (lastEval st) evaluation = false →
  childNodes (dom st) = pre ++ blockStart b :: post →
  NoDup (childNodes (dom st)) →
  fragment (dom st) = [] →
  NoDup (selected b evaluation) →
  blockStart b ∉ block_nodes b →
  (∀ n, n ∈ ifBlock b → n ∉ elseBlock b) →
  update b evaluation st =
  Return {| dom := {| childNodes :=
                        outside (block_nodes b) pre
                        ++ blockStart b :: selected b evaluation
                        ++ outside (block_nodes b) post;
                      fragment := [] |};
            lastEval := evaluation |}.
Proof.
  intros Hne Hcs Hnd Hfr Hsel Hstart Hdisj.
  unfold update. rewrite Hne. unfold selected in *.
  assert (NoDup (outside (block_nodes b) pre
                 ++ blockStart b :: outside (block_nodes b) post)) as Hnd'.
  { replace (outside (block_nodes b) pre
             ++ blockStart b :: outside (block_nodes b) post)
      with (outside (block_nodes b) (childNodes (dom st))).
    - unfold outside. by apply NoDup_filter.
    - rewrite Hcs, outside_app. f_equal. unfold outside.
      by rewrite filter_cons_True. }
  assert (outside (block_nodes b) (childNodes (dom st))
          = outside (block_nodes b) pre
            ++ blockStart b :: outside (block_nodes b) post) as Hout.
  { rewrite Hcs, outside_app. f_equal. unfold outside.
    by rewrite filter_cons_True. }
  destruct (truthy evaluation).
  - rewrite (appendChild_all _ _ Hsel), remove_all. simpl.
    rewrite Hfr, outside_outside. simpl.
    rewrite (outside_keep (elseBlock b) (ifBlock b)) by exact Hdisj.
    fold (block_nodes b). rewrite Hout.
    by rewrite (insert_after _ _ _ _ Hnd').
  - rewrite (appendChild_all _ _ Hsel), remove_all. simpl.
    rewrite Hfr, outside_outside. simpl.
    rewrite (outside_keep (ifBlock b) (elseBlock b))
      by (intros x Hx Hx'; by apply (Hdisj x)).
    rewrite (outside_same (elseBlock b ++ ifBlock b) (block_nodes b))
      by (intros x; unfold block_nodes; rewrite !elem_of_app; tauto).
    rewrite Hout.
    by rewrite (insert_after _ _ _ _ Hnd').
Qed.

(** With a guard that evaluates to [undefined] at bind time, the first
    [update()] returns at the memo check and leaves the tree as parsed. *)
Lemma bind_undefined (b : block) (children : list node) :
  bind b children VUndefined = Return (initial children).
Proof. reflexivity. Qed.

(** With any other first guard value, the selected branch is attached and
    the other one is not. *)
Lemma bind_defined_guard (b : block) (children pre post : list node)
  (evaluation : value) :
  evaluation ≠ VUndefined →
  children = pre ++ blockStart b :: post →
  NoDup children →
  NoDup (ifBlock b) → NoDup (elseBlock b) →
  blockStart b ∉ block_nodes b →
  (∀ n, n ∈ ifBlock b → n ∉ elseBlock b) →
  ∃ st, bind b children evaluation = Return st
        ∧ (∀ n, n ∈ selected b evaluation → n ∈ childNodes (dom st))
        ∧ detached (selected b (VBool (negb (truthy evaluation)))) (dom st).
Proof.
  intros Hev Hcs Hnd Hif Helse Hstart Hdisj.
  unfold bind. eexists. split.
  - apply (update_changed b evaluation (initial children) pre post);
      try done.
    + simpl. by destruct evaluation.
    + unfold selected. by destruct (truthy evaluation).
  - simpl. split.
    + intros n Hn. rewrite elem_of_app, elem_of_cons, elem_of_app. auto.
    + intros n Hn Hin.
      assert (n ∈ block_nodes b ∧ n ∉ selected b evaluation) as [Hblock Hsel].
      { unfold selected, block_nodes in *. simpl in Hn.
        destruct (truthy evaluation); simpl in Hn; rewrite elem_of_app.
        - split; [by right|]. intros Hn'. by apply (Hdisj n).
        - split; [by left|]. intros Hn'. by apply (Hdisj n). }
      simpl in Hin.
      rewrite elem_of_app, elem_of_cons, elem_of_app, !elem_of_outside in Hin.
      destruct Hin as [[? _]|[->|[?|[? _]]]]; done.
Qed.

(** C6, at a block whose guard evaluates to [undefined] at bind time (a
    state key bound to [undefined], say): the memo starts as [undefined],
    the first [update()] returns before it patches, and both branches stay
    attached. *)
Theorem bind_with_undefined_guard_keeps_both_branches :
  let b := {| ifBlock := [1%nat]; elseBlock := [3%nat];
              blockStart := 0%nat |} in
  ∃ st, bind b [0; 1; 2; 3; 4]%nat VUndefined = Return st
        ∧ attached (ifBlock b) (dom st)
        ∧ attached (elseBlock b) (dom st).
Proof.
  intros b. exists (initial [0; 1; 2; 3; 4]%nat).
  split; [reflexivity|].
  split; (split; [discriminate|]);
    intros n Hn; apply list_elem_of_singleton in Hn; subst; simpl;
    apply list_elem_of_In; simpl; tauto.
Qed.

(** C7: an [update()] whose guard value is strictly equal to the memo
    returns the state as it is, tree included; an [update()] whose guard
    goes from a falsy memo to a truthy value takes the nodes of the block
    out of the child list, puts the if-branch just after the start marker,
    and leaves the other children, in their order, on their side of the
    marker. *)
Theorem conditional_update_memo_and_swap (b : block) (evaluation : value)
  (st : block_state) :
  (strict_eq (lastEval st) evaluation = true →
     update b evaluation st = Return st)
  ∧ (∀ pre post,
       truthy (lastEval st) = false → truthy evaluation = true →
       childNodes (dom st) = pre ++ blockStart b :: post →
       NoDup (childNodes (dom st)) →
       fragment (dom st) = [] →
       NoDup (ifBlock b) →
       blockStart b ∉ block_nodes b →
       (∀ n, n ∈ ifBlock b → n ∉ elseBlock b) →
       ∃ st', update b evaluation st = Return st'
              ∧ lastEval st' = evaluation
              ∧ childNodes (dom st') =
                  outside (block_nodes b) pre
                  ++ blockStart b :: ifBlock b
                  ++ outside (block_nodes b) post
              ∧ outside (block_nodes b) (childNodes (dom st'))
                = outside (block_nodes b) (childNodes (dom st))).
Proof.
  split.
  - intros H. unfold update. by rewrite H.
  - intros pre post Hold Hnew Hcs Hnd Hfr Hif Hstart Hdisj.
    assert (strict_eq (lastEval st) evaluation = false) as Hne.
    { destruct (strict_eq (lastEval st) evaluation) eqn:E; [|done].
      apply strict_eq_truthy in E. congruence. }
    eexists. split.
    + apply (update_changed b evaluation st pre post); try done.
      unfold selected. by rewrite Hnew.
    + simpl. unfold selected. rewrite Hnew. split; [done|]. split; [done|].
      rewrite Hcs, !outside_app, !outside_cons_keep by done.
      rewrite outside_app, !outside_idem.
      rewrite (outside_drop (block_nodes b) (ifBlock b))
        by (intros x Hx; apply elem_of_app; by left).
      done.
Qed.

Lemma conditional_update_memo_and_swap_witness :
  let b := {| ifBlock := [5%nat]; elseBlock := [3%nat];
              blockStart := 0%nat |} in
  let st := {| dom := {| childNodes := [9; 0; 3; 4]%nat; fragment := [] |};
               lastEval := VBool false |} in
  update b (VBool false) st = Return st
  ∧ ∃ st', update b (VBool true) st = Return st'
           ∧ childNodes (dom st') = [9; 0; 5; 4]%nat.
Proof.
  intros b st.
  destruct (conditional_update_memo_and_swap b (VBool false) st) as [Hm _].
  destruct (conditional_update_memo_and_swap b (VBool true) st) as [_ Hs].
  split; [apply Hm; reflexivity|].
  destruct (Hs [9%nat] [3; 4]%nat) as (st' & Hu & _ & Hc & _);
    try reflexivity.
  - unfold st; simpl. repeat constructor; rewrite ?elem_of_cons, ?elem_of_nil; lia.
  - simpl. repeat constructor; rewrite ?elem_of_cons, ?elem_of_nil; lia.
  - unfold block_nodes; simpl. rewrite !elem_of_cons, elem_of_nil. lia.
  - simpl. intros n Hn Hn'. apply list_elem_of_singleton in Hn, Hn'. lia.
  - exists st'. split; [exact Hu|]. rewrite Hc. reflexivity.
Defined.

End IfBlockFacts.

(** ** List blocks *)

Module EachBlockFacts.
Import Store Heap Registrar Evaluator Dom EachBlock DomFacts Examples.

(** One round of the reconciling loop that returns: what it adds to
    [newDomNodes], to the map and to the trace. *)
Lemma reconcile_item_step (W : World) (b : each_block) (total : nat)
  (it : value) (i : nat) (ls ls' : loop_state) :
  reconcile_item W b total it i ls = Return ls' →
  ∃ key added es,
    key_of W (hidden_keys (world ls)) it = Normal key
    ∧ newDomNodes ls' = newDomNodes ls ++ added
    ∧ dom (world ls') = dom (world ls)
    ∧ domNodes (world ls') = domNodes (world ls)
    ∧ hidden_keys (world ls') = hidden_keys (world ls)
    ∧ effects (world ls') = effects (world ls) ++ es
    ∧ match map_get (oldNodeMap ls) key with
      | Some old =>
          added = [{| node_of := node_of old;
                      data := {| item := it; index := i;
                                 _dom_master_key := key |} |}]
          ∧ oldNodeMap ls' = map_delete (oldNodeMap ls) key
          ∧ next_node (world ls') = next_node (world ls)
      | None =>
          oldNodeMap ls' = oldNodeMap ls
          ∧ if bool_decide (total ≠ length (domNodes (world ls))) then
              added = [{| node_of := next_node (world ls);
                          data := {| item := it; index := i;
                                     _dom_master_key := key |} |}]
              ∧ next_node (world ls') = S (next_node (world ls))
              ∧ CloneNode (next_node (world ls)) ∈ es
              ∧ ParseEachBlocks (next_node (world ls)) ∈ es
              ∧ ParseIfStatements (next_node (world ls)) ∈ es
              ∧ ParseNode (next_node (world ls)) ∈ es
            else added = [] ∧ es = []
                 ∧ next_node (world ls') = next_node (world ls)
      end.
Proof.
  unfold reconcile_item. intros H.
  destruct (key_of W (hidden_keys (world ls)) it) as [key|e] eqn:Ek;
    [|discriminate].
  exists key.
  destruct (map_get (oldNodeMap ls) key) as [old|] eqn:Em.
  - destruct (if _ && negb (structuredClone_ok W it)
              then Abrupt DataCloneError else _)
      as [writes|e] eqn:Ew; [|discriminate].
    injection H as <-. simpl.
    eexists _, _. repeat split; try reflexivity.
    by rewrite <- app_assoc.
  - destruct (bool_decide (total ≠ length (domNodes (world ls)))) eqn:Et.
    + destruct (match keys b with
                | Some ks => _
                | None => _
                end) as [[ctx logs]|e] eqn:Ec; [|discriminate].
      injection H as <-. simpl.
      eexists _, _. repeat split; try reflexivity.
      all: repeat (rewrite elem_of_app || rewrite elem_of_cons); naive_solver.
    + injection H as <-. exists [], []. rewrite !app_nil_r.
      repeat split; reflexivity.
Qed.


Lemma map_get_delete_None (m : node_map) (k k' : value) :
  map_get m k = None → map_get (map_delete m k') k = None.
Proof.
  unfold map_delete. induction m as [|[k0 r0] m IH]; [done|].
  intros H. simpl in H. rewrite filter_cons.
  destruct (bool_decide (k0 = k)) eqn:E; [done|].
  destruct (decide ((k0, r0).1 ≠ k')); simpl.
  - rewrite E. by apply IH.
  - by apply IH.
Qed.

(** The reconciling loop, when it returns: the tree, the previous records
    and the keys are as before; every record it adds carries the position
    of its item; an item whose key is not in the map gets a record with a
    new node, cloned and parsed, when [total] differs from the number of
    previous records, and no record when they are equal. *)
Lemma reconcile_from_returns (W : World) (b : each_block) (total : nat)
  (items : list value) (i0 : nat) (ls ls' : loop_state) :
  reconcile_from W b total items i0 ls = Return ls' →
  dom (world ls') = dom (world ls)
  ∧ domNodes (world ls') = domNodes (world ls)
  ∧ hidden_keys (world ls') = hidden_keys (world ls)
  ∧ next_node (world ls) ≤ next_node (world ls')
  ∧ (total = length (domNodes (world ls)) →
       next_node (world ls') = next_node (world ls))
  ∧ (∀ k, map_get (oldNodeMap ls) k = None →
          map_get (oldNodeMap ls') k = None)
  ∧ ∃ added es,
      newDomNodes ls' = newDomNodes ls ++ added
      ∧ effects (world ls') = effects (world ls) ++ es
      ∧ (∀ r, r ∈ added → i0 ≤ index (data r) < i0 + length items)
      ∧ ∀ j it key,
          items !! j = Some it →
          key_of W (hidden_keys (world ls)) it = Normal key →
          map_get (oldNodeMap ls) key = None →
          if bool_decide (total ≠ length (domNodes (world ls))) then
            ∃ r, r ∈ added ∧ index (data r) = i0 + j ∧ item (data r) = it
                 ∧ next_node (world ls) ≤ node_of r < next_node (world ls')
                 ∧ CloneNode (node_of r) ∈ es
                 ∧ ParseEachBlocks (node_of r) ∈ es
                 ∧ ParseIfStatements (node_of r) ∈ es
                 ∧ ParseNode (node_of r) ∈ es
          else ∀ r, r ∈ added → index (data r) ≠ i0 + j.
Proof.
  revert i0 ls. induction items as [|it0 items IH]; intros i0 ls H; simpl in H.
  - injection H as <-.
    do 6 (split; [done || lia|]).
    exists [], []. rewrite !app_nil_r.
    split; [done|]. split; [done|]. split.
    + intros r Hr. by apply elem_of_nil in Hr.
    + intros j it key Hj. done.
  - destruct (reconcile_item W b total it0 i0 ls) as [ls1|e ls1] eqn:E1;
      [|discriminate].
    apply reconcile_item_step in E1
      as (key0 & added0 & es0 & Hk0 & Hn0 & Hd0 & Hdn0 & Hh0 & He0 & Hcase).
    apply IH in H
      as (Hd & Hdn & Hh & Hmono & Hsame & Hmap & added & es & Hn & He & Hidx & Hun).
    assert (next_node (world ls) ≤ next_node (world ls1)
            ∧ (total = length (domNodes (world ls)) →
                 next_node (world ls1) = next_node (world ls))
            ∧ (∀ k, map_get (oldNodeMap ls) k = None →
                    map_get (oldNodeMap ls1) k = None)
            ∧ (∀ r, r ∈ added0 → index (data r) = i0)) as (Hm1 & Hs1 & Hmap1 & Hi1).
    { destruct (map_get (oldNodeMap ls) key0) as [old|].
      - destruct Hcase as (-> & -> & ->). repeat split; try lia.
        + intros k Hk. by apply map_get_delete_None.
        + intros r Hr. apply list_elem_of_singleton in Hr. by subst.
      - destruct Hcase as [-> Hcase].
        destruct (bool_decide (total ≠ length (domNodes (world ls)))) eqn:Et.
        + destruct Hcase as (-> & -> & _). repeat split; try lia; try done.
          * intros Heq. apply bool_decide_eq_true in Et. done.
          * intros r Hr. apply list_elem_of_singleton in Hr. by subst.
        + destruct Hcase as (-> & -> & ->). repeat split; try lia; try done.
          intros r Hr. by apply elem_of_nil in Hr. }
    rewrite Hdn0 in *. rewrite Hh0 in *.
    split; [congruence|]. split; [congruence|]. split; [congruence|].
    split; [lia|]. split; [intros Heq; rewrite Hsame, Hs1 by done; done|].
    split; [intros k Hk; by apply Hmap, Hmap1|].
    exists (added0 ++ added), (es0 ++ es).
    split; [by rewrite Hn, Hn0, <- app_assoc|].
    split; [by rewrite He, He0, <- app_assoc|].
    split.
    { intros r Hr. apply elem_of_app in Hr as [Hr|Hr].
      - rewrite (Hi1 r Hr). simpl. lia.
      - specialize (Hidx r Hr). simpl. lia. }
    intros j it key Hj Hkey Hmiss. destruct j as [|j]; simpl in Hj.
    + injection Hj as ->. rewrite Hkey in Hk0. injection Hk0 as <-.
      rewrite Hmiss in Hcase. destruct Hcase as [_ Hcase].
      destruct (bool_decide (total ≠ length (domNodes (world ls)))) eqn:Et.
      * destruct Hcase as (-> & Hnn & Hc1 & Hc2 & Hc3 & Hc4).
        eexists. split; [apply elem_of_app; left; left|]. simpl.
        rewrite !elem_of_app. repeat split; auto; lia.
      * destruct Hcase as (-> & _ & _). intros r Hr. simpl in Hr.
        specialize (Hidx r Hr). lia.
    + specialize (Hun j it key Hj Hkey (Hmap1 _ Hmiss)).
      destruct (bool_decide (total ≠ length (domNodes (world ls)))) eqn:Et.
      * destruct Hun as (r & Hr & Hri & Hrit & Hrn & Hc1 & Hc2 & Hc3 & Hc4).
        exists r. rewrite !elem_of_app.
        repeat split; auto; lia.
      * intros r Hr. apply elem_of_app in Hr as [Hr|Hr].
        -- rewrite (Hi1 r Hr). lia.
        -- specialize (Hun r Hr). lia.
Qed.


Lemma mint_frame (uniid : nat → string) (W : World) (it : value)
  (st st' : each_state) :
  mint uniid W it st = Return st' →
  dom st' = dom st ∧ domNodes st' = domNodes st
  ∧ next_node st' = next_node st ∧ effects st' = effects st.
Proof.
  unfold mint. intros H.
  destruct (typeof it); try (injection H as <-; done).
  destruct (read_key W (hidden_keys st) it) as [k|e]; [|discriminate].
  destruct (truthy k); [injection H as <-; done|].
  destruct it; try discriminate.
  destruct (hidden_keys st !! r) as [old|].
  - destruct (bool_decide _); [injection H as <-; done|discriminate].
  - injection H as <-. done.
Qed.

Lemma mint_all_frame (uniid : nat → string) (W : World) (items : list value)
  (st st' : each_state) :
  mint_all uniid W items st = Return st' →
  dom st' = dom st ∧ domNodes st' = domNodes st
  ∧ next_node st' = next_node st ∧ effects st' = effects st.
Proof.
  revert st. induction items as [|it items IH]; intros st H; simpl in H.
  - injection H as <-. done.
  - destruct (mint uniid W it st) as [st1|e st1] eqn:E; [|discriminate].
    apply mint_frame in E as (? & ? & ? & ?).
    apply IH in H as (? & ? & ? & ?). repeat split; congruence.
Qed.

Lemma insert_before_contains (ref : node) (new l : list node) (x : node) :
  ref ∈ l → x ∈ new → x ∈ insert_before ref new l.
Proof.
  induction l as [|y l IH]; intros Hr Hx; simpl.
  - by apply elem_of_nil in Hr.
  - destruct (bool_decide (y = ref)) eqn:E.
    + apply elem_of_app. by left.
    + right. apply IH; [|done]. apply elem_of_cons in Hr as [->|Hr]; [|done].
      apply bool_decide_eq_false in E. done.
Qed.

(** When [place] returns, the node of every record is a child of the
    parent. *)
Lemma place_contains (b : each_block) (records : list rendered) (t t' : tree)
  (r : rendered) :
  place b records t = Return t' → r ∈ records → node_of r ∈ childNodes t'.
Proof.
  unfold place. intros H Hr.
  set (t1 := foldl _ _ records) in H.
  assert (node_of r ∈ fragment t1) as Hin.
  { unfold t1. clear H t1. revert t.
    induction records as [|m ns IH] using rev_ind; intros t.
    - by apply elem_of_nil in Hr.
    - rewrite foldl_app. simpl. apply elem_of_app.
      destruct (decide (node_of r = node_of m)) as [Heq|Hne].
      + right. rewrite Heq. left.
      + left. unfold without. apply list_elem_of_filter. split; [done|].
        apply IH. apply elem_of_app in Hr as [Hr|Hr]; [done|].
        apply list_elem_of_singleton in Hr. by subst. }
  destruct (fragment t1) as [|x frag] eqn:Ef.
  - by apply elem_of_nil in Hin.
  - unfold parent_insertBefore in H.
    destruct (nextSibling (blockStart b) t1) as [ref|].
    + destruct (bool_decide (ref ∈ childNodes t1)) eqn:Eref; [|discriminate].
      injection H as <-. simpl. apply bool_decide_eq_true in Eref.
      rewrite Ef. by apply insert_before_contains.
    + injection H as <-. simpl. apply elem_of_app. right. by rewrite Ef.
Qed.

(** C9: in an [update()] that returns, an item of the new array whose key
    is not in the map of the previous records gets a record with a new
    node, cloned from the template, parsed and put among the children,
    when the length of the new array differs from the number of previous
    records; when the two are equal the item gets no record and no node is
    made at all. *)
Theorem unmatched_item_node_iff_length_changed (uniid : nat → string)
  (W : World) (b : each_block) (vars : variables) (st st' : each_state)
  (res : lookup_result) (a : nat) (items : list value)
  (i : nat) (it key : value) :
  update uniid W b vars st = Return st' →
  getValueFromExpression W vars (arrayName b) = Normal res →
  value_of res = VObj a →
  arrays W !! a = Some items →
  items !! i = Some it →
  key_of W (hidden_keys st') it = Normal key →
  map_get (map_of (domNodes st)) key = None →
  if bool_decide (length items ≠ length (domNodes st)) then
    ∃ r, r ∈ domNodes st' ∧ index (data r) = i ∧ item (data r) = it
         ∧ next_node st ≤ node_of r < next_node st'
         ∧ node_of r ∈ childNodes (dom st')
         ∧ CloneNode (node_of r) ∈ effects st'
         ∧ ParseEachBlocks (node_of r) ∈ effects st'
         ∧ ParseIfStatements (node_of r) ∈ effects st'
         ∧ ParseNode (node_of r) ∈ effects st'
  else (∀ r, r ∈ domNodes st' → index (data r) ≠ i)
       ∧ next_node st' = next_node st.
Proof.
  intros Hup Hval Hobj Harr Hi Hkey Hmiss.
  unfold update, newItems_of in Hup. rewrite Hval, Hobj in Hup.
  simpl in Hup. rewrite Harr in Hup.
  destruct (mint_all uniid W items st) as [st1|e st1] eqn:Em; [|discriminate].
  apply mint_all_frame in Em as (Hd1 & Hdn1 & Hnn1 & He1).
  destruct (reconcile_from W b (length items) items 0 _) as [ls|e ls] eqn:Er;
    [|discriminate].
  destruct (remove_old (oldNodeMap ls) (dom (world ls))) as [t|e t] eqn:Eo;
    [|discriminate].
  destruct (place b (newDomNodes ls) t) as [t'|e t'] eqn:Ep; [|discriminate].
  injection Hup as <-. simpl in *.
  apply reconcile_from_returns in Er
    as (_ & Hdn & Hh & Hmono & Hsame & _ & added & es & Hn & He & Hidx & Hun).
  simpl in *. rewrite Hh in Hkey. rewrite Hdn1 in *.
  specialize (Hun i it key Hi Hkey Hmiss). rewrite Hn.
  destruct (bool_decide (length items ≠ length (domNodes st))) eqn:Et.
  - destruct Hun as (r & Hr & Hri & Hrit & Hrn & Hc1 & Hc2 & Hc3 & Hc4).
    exists r. rewrite He, !elem_of_app.
    split; [done|]. split; [done|]. split; [done|]. split; [lia|].
    split; [|auto].
    apply (place_contains b (newDomNodes ls) t); [done|]. by rewrite Hn.
  - split; [exact Hun|]. rewrite <- Hnn1. apply Hsame.
    apply bool_decide_eq_false in Et. by apply dec_stable.
Qed.


Lemma key_of_keyed (W : World) (hidden : gmap nat value) (it k : value) :
  keyed hidden it k → key_of W hidden it = Normal k.
Proof.
  intros (r & -> & Hk & _). unfold key_of, read_key. simpl. by rewrite Hk.
Qed.

Lemma mint_keyed (uniid : nat → string) (W : World) (it k : value)
  (st : each_state) :
  keyed (hidden_keys st) it k → mint uniid W it st = Return st.
Proof.
  intros (r & -> & Hk & Ht). unfold mint, read_key. simpl.
  by rewrite Hk, Ht.
Qed.

Lemma mint_all_keyed (uniid : nat → string) (W : World)
  (items ks : list value) (st : each_state) :
  Forall2 (keyed (hidden_keys st)) items ks →
  mint_all uniid W items st = Return st.
Proof.
  induction 1 as [|it k items ks Hk _ IH]; simpl; [done|].
  by rewrite (mint_keyed _ _ _ _ _ Hk).
Qed.

Lemma js_get_object (W : World) (r : nat) (k : string) :
  ∃ v, js_get W (VObj r) k = Normal v.
Proof.
  unfold js_get.
  destruct (objects W !! r); [by eexists|].
  destruct (arrays W !! r); [|by eexists].
  destruct (bool_decide (k = "length")); [by eexists|].
  destruct (array_index k); by eexists.
Qed.

Lemma key_writes_object (W : World) (n : node) (r : nat) (cloned : bool)
  (ks : list string) :
  ∃ l, key_writes W n (VObj r) cloned ks = Normal l.
Proof.
  induction ks as [|k ks [l IH]]; [by eexists|].
  destruct (js_get_object W r k) as [v Hv].
  exists (WriteItem n k v cloned :: l).
  cbn [key_writes]. by rewrite Hv, IH.
Qed.

Lemma map_get_delete_ne (m : node_map) (k k' : value) :
  k ≠ k' → map_get (map_delete m k') k = map_get m k.
Proof.
  intros Hne. unfold map_delete. induction m as [|[k0 r0] m IH]; [done|].
  rewrite filter_cons. simpl.
  destruct (decide (k0 ≠ k')) as [H|H]; simpl.
  - destruct (bool_decide (k0 = k)); [done|]. apply IH.
  - apply dec_stable in H. subst k0.
    rewrite bool_decide_eq_false_2 by done. apply IH.
Qed.

Lemma reused_delete (m : node_map) (items ks : list value) (i : nat)
  (k0 : value) :
  k0 ∉ ks → reused (map_delete m k0) items ks i = reused m items ks i.
Proof.
  revert ks i. induction items as [|it items IH]; intros ks i Hk; [done|].
  destruct ks as [|k ks]; [done|]. simpl.
  apply not_elem_of_cons in Hk as [Hne Hk].
  rewrite map_get_delete_ne by done.
  destruct (map_get m k); by rewrite IH.
Qed.

(** The reconciling loop over items that are all objects rendered before
    and that can be cloned, with distinct keys that are all in the map:
    every round takes the reuse branch, and no node is made. *)
Lemma reconcile_from_all_hit (W : World) (b : each_block) (total : nat)
  (items ks : list value) (i0 : nat) (ls : loop_state) :
  Forall2 (keyed (hidden_keys (world ls))) items ks →
  Forall (fun it => structuredClone_ok W it = true) items →
  NoDup ks →
  (∀ k, k ∈ ks → is_Some (map_get (oldNodeMap ls) k)) →
  ∃ ls', reconcile_from W b total items i0 ls = Return ls'
         ∧ newDomNodes ls'
           = newDomNodes ls ++ reused (oldNodeMap ls) items ks i0
         ∧ dom (world ls') = dom (world ls)
         ∧ next_node (world ls') = next_node (world ls)
         ∧ hidden_keys (world ls') = hidden_keys (world ls)
         ∧ uniid_calls (world ls') = uniid_calls (world ls)
         ∧ (∀ e, e ∈ oldNodeMap ls' → e ∈ oldNodeMap ls ∧ e.1 ∉ ks).
Proof.
  revert ks i0 ls.
  induction items as [|it items IH]; intros ks i0 ls HF Hcl Hnd Hin.
  - apply Forall2_nil_inv_l in HF as ->. exists ls. simpl.
    rewrite app_nil_r. repeat split; try done. apply not_elem_of_nil.
  - apply Forall2_cons_inv_l in HF as (k & ks' & Hk & HF & ->).
    apply Forall_cons in Hcl as [Hcl0 Hcl].
    apply NoDup_cons in Hnd as [Hk' Hnd].
    destruct (Hin k) as [old Hold]; [left|].
    pose proof Hk as (r & -> & Hr & Ht).
    simpl. unfold reconcile_item.
    rewrite (key_of_keyed _ _ _ _ Hk), Hold, Hcl0, andb_false_r.
    set (cloned := match typeof (item (data old)) with
                   | TObject => true | _ => false end).
    assert (∃ writes,
              match keys b with
              | Some ks0 => key_writes W (node_of old) (VObj r) cloned ks0
              | None => Normal [WriteItem (node_of old) (itemName b)
                                   (VObj r) cloned]
              end = Normal writes) as [writes ->].
    { destruct (keys b); [apply key_writes_object | by eexists]. }
    match goal with
    | |- ∃ ls', reconcile_from _ _ _ _ _ ?l1 = _ ∧ _ => set (ls1 := l1)
    end.
    destruct (IH ks' (S i0) ls1)
      as (ls' & Hrec & Hnew & Hd & Hn & Hh & Hu & Hmap).
    + exact HF.
    + exact Hcl.
    + exact Hnd.
    + intros k0 Hk0. unfold ls1, push. simpl.
      rewrite map_get_delete_ne by (intros ->; done).
      apply Hin. by right.
    + exists ls'. split; [exact Hrec|].
      unfold ls1, push in Hnew, Hd, Hn, Hh, Hu, Hmap. simpl in *.
      split.
      { rewrite Hnew, <- app_assoc. simpl.
        by rewrite reused_delete. }
      repeat split; try done.
      * apply Hmap in H as [He _]. unfold map_delete in He.
        apply list_elem_of_filter in He. tauto.
      * intros He. apply elem_of_cons in He as [He|He].
        -- apply Hmap in H as [H _]. unfold map_delete in H.
           apply list_elem_of_filter in H as [H _]. done.
        -- apply Hmap in H as [_ H]. done.
Qed.

(** *** The map of the previous records *)

Lemma map_set_fresh (m : node_map) (k : value) (r : rendered) :
  k ∉ m.*1 → map_set m k r = m ++ [(k, r)].
Proof.
  induction m as [|[k0 r0] m IH]; intros Hk; simpl; [done|].
  rewrite fmap_cons in Hk. apply not_elem_of_cons in Hk as [Hne Hk].
  rewrite bool_decide_eq_false_2 by (simpl in Hne; congruence).
  by rewrite IH.
Qed.

Lemma map_of_from (acc : node_map) (l : list rendered) :
  NoDup (acc.*1 ++ (key_of_record <$> l)) →
  foldl (fun m r => map_set m (_dom_master_key (data r)) r) acc l
  = acc ++ (entry_of <$> l).
Proof.
  revert acc. induction l as [|r l IH]; intros acc Hnd; simpl.
  - by rewrite app_nil_r.
  - rewrite map_set_fresh.
    + rewrite IH.
      * by rewrite <- app_assoc.
      * rewrite fmap_app. simpl. rewrite <- app_assoc. exact Hnd.
    + apply NoDup_app in Hnd as (_ & Hd & _). intros Hin.
      apply (Hd _ Hin). left.
Qed.

Lemma map_of_entries (l : list rendered) :
  NoDup (key_of_record <$> l) → map_of l = entry_of <$> l.
Proof. intros H. unfold map_of. by rewrite map_of_from. Qed.

Lemma map_get_entries (l : list rendered) (r : rendered) :
  NoDup (key_of_record <$> l) → r ∈ l →
  map_get (entry_of <$> l) (key_of_record r) = Some r.
Proof.
  induction l as [|r0 l IH]; intros Hnd Hr; [by apply elem_of_nil in Hr|].
  rewrite fmap_cons in Hnd. apply NoDup_cons in Hnd as [Hr0 Hnd]. simpl.
  apply elem_of_cons in Hr as [->|Hr].
  - by rewrite bool_decide_eq_true_2.
  - rewrite bool_decide_eq_false_2; [by apply IH|].
    intros Heq. apply Hr0. rewrite Heq.
    apply list_elem_of_fmap. by exists r.
Qed.

Lemma map_get_entries_Some (l : list rendered) (k : value) (old : rendered) :
  map_get (entry_of <$> l) k = Some old → old ∈ l ∧ key_of_record old = k.
Proof.
  induction l as [|r0 l IH]; simpl; [done|].
  destruct (bool_decide (key_of_record r0 = k)) eqn:E.
  - intros [= <-]. apply bool_decide_eq_true in E. split; [left|done].
  - intros H. apply IH in H as [? ?]. split; [by right|done].
Qed.

Lemma map_get_entries_is_Some (l : list rendered) (k : value) :
  NoDup (key_of_record <$> l) → k ∈ key_of_record <$> l →
  is_Some (map_get (entry_of <$> l) k).
Proof.
  intros Hnd Hk. apply list_elem_of_fmap in Hk as (r & -> & Hr).
  rewrite map_get_entries by done. by eexists.
Qed.

(** *** The records of a reorder *)

Lemma reused_lookup (m : node_map) (items ks : list value) (i0 j : nat)
  (it k : value) :
  (∀ k, k ∈ ks → is_Some (map_get m k)) →
  items !! j = Some it → ks !! j = Some k →
  ∃ old, map_get m k = Some old
         ∧ reused m items ks i0 !! j
           = Some {| node_of := node_of old;
                     data := {| item := it; index := i0 + j;
                                _dom_master_key := k |} |}.
Proof.
  revert ks i0 j. induction items as [|it0 items IH]; intros ks i0 j Hin Hi Hk.
  - done.
  - destruct ks as [|k0 ks]; [done|].
    destruct (Hin k0) as [old0 Hold0]; [left|]. simpl. rewrite Hold0.
    destruct j as [|j]; simpl in *.
    + injection Hi as ->. injection Hk as ->. exists old0.
      split; [done|]. by rewrite Nat.add_0_r.
    + destruct (IH ks (S i0) j) as (old & Hold & Hl); try done.
      * intros k' Hk'. apply Hin. by right.
      * exists old. split; [done|]. rewrite Hl.
        by replace (S i0 + j) with (i0 + S j) by lia.
Qed.

Lemma reused_nodes (m : node_map) (items ks : list value) (i0 : nat) :
  length items = length ks →
  node_of <$> reused m items ks i0
  = omap (fun k => node_of <$> map_get m k) ks.
Proof.
  revert ks i0. induction items as [|it items IH]; intros ks i0 Hlen.
  - destruct ks; [done|discriminate].
  - destruct ks as [|k ks]; [discriminate|]. simpl in *.
    destruct (map_get m k) as [old|]; simpl; rewrite IH by lia; done.
Qed.

Lemma omap_entries (l l' : list rendered) :
  NoDup (key_of_record <$> l) → (∀ r, r ∈ l' → r ∈ l) →
  omap (fun k => node_of <$> map_get (entry_of <$> l) k) (key_of_record <$> l')
  = node_of <$> l'.
Proof.
  intros Hnd. induction l' as [|r l' IH]; intros Hsub; [done|].
  simpl. rewrite map_get_entries by (done || apply Hsub; left). simpl.
  f_equal. apply IH. intros r' Hr'. apply Hsub. by right.
Qed.

(** The nodes of the new records are the nodes of the previous records, in
    some order. *)
Lemma reused_nodes_permutation (l : list rendered) (items ks : list value)
  (i0 : nat) :
  NoDup (key_of_record <$> l) →
  length items = length ks →
  ks ≡ₚ key_of_record <$> l →
  node_of <$> reused (entry_of <$> l) items ks i0 ≡ₚ node_of <$> l.
Proof.
  intros Hnd Hlen Hperm. rewrite reused_nodes by done.
  rewrite Hperm. by rewrite omap_entries.
Qed.

(** *** Placing the nodes *)

Lemma place_after_marker (b : each_block) (records : list rendered)
  (t : tree) (pre post : list node) :
  NoDup (node_of <$> records) →
  childNodes t = pre ++ blockStart b :: post →
  NoDup (childNodes t) →
  blockStart b ∉ node_of <$> records →
  place b records t =
  Return {| childNodes :=
              outside (node_of <$> records) pre
              ++ blockStart b :: (node_of <$> records)
              ++ outside (node_of <$> records) post;
            fragment := [] |}.
Proof.
  intros Hnd Hcs Hndc Hb. unfold place.
  rewrite <- (foldl_fmap (fun t n => fragment_appendChild n t) _ records node_of).
  revert Hnd Hb. generalize (node_of <$> records). intros ns Hnd Hb.
  rewrite appendChild_all by done. simpl.
  rewrite Hcs, outside_app, outside_cons_keep by done.
  assert (NoDup (outside ns pre ++ blockStart b :: outside ns post)) as Hnd'.
  { rewrite <- (outside_cons_keep _ _ _ Hb), <- outside_app, <- Hcs.
    unfold outside. by apply NoDup_filter. }
  destruct ns as [|n ns'].
  - by rewrite !outside_nil.
  - by rewrite (insert_after _ _ _ _ Hnd').
Qed.


(** *** The claims on list blocks *)

(** C8, at objects that have a method: the array holds the two objects of
    the previous render in the other order, the reuse branch calls
    [structuredClone] on the first of them, which throws a DataCloneError,
    and the nodes stay in the order of the previous render. *)
Lemma reorder_of_objects_with_methods_throws :
  arrays methods_world !! 1 = Some [VObj 12; VObj 11]
  ∧ item ∘ data <$> domNodes rendered_twice = [VObj 11; VObj 12]
  ∧ ∃ st', update (fun _ => "k") methods_world list_block (StoreProxy 0)
             rendered_twice = Throw DataCloneError st'
           ∧ childNodes (dom st') = [0; 21; 22; 5]
           ∧ node_of <$> domNodes st' = [21; 22].
Proof.
  split; [vm_compute; reflexivity|]. split; [reflexivity|].
  eexists. split; [vm_compute; reflexivity|]. split; reflexivity.
Qed.

(** An object that is in the array twice has two records under one key:
    the map keeps one of them, the second occurrence in the new array finds
    the key consumed, and with equal lengths it gets no record, while the
    node of its former record stays among the children. *)
Lemma reorder_with_repeated_object :
  ∃ st', update (fun _ => "k")
           (todos_world (VObj 1) [VObj 11; VObj 11; VObj 12]) list_block
           (StoreProxy 0) rendered_repeated = Return st'
         ∧ node_of <$> domNodes st' = [23; 22]
         ∧ childNodes (dom st') = [0; 23; 22; 21; 5].
Proof. eexists. split; [vm_compute; reflexivity|]. split; reflexivity. Qed.

(** C8 (amended): when the new array holds the objects of the previous
    render, each with the key it got then and each accepted by
    [structuredClone], in any order, [update()] returns; it makes no node;
    the record at each position of the new array has the node of the
    previous record with the same key; and the nodes of the records, in
    the order of the new array, come just after the start marker, the
    other children keeping their order on their side of the marker.  The
    previous records have one record per key and one node per record. *)
Theorem keyed_reorder_reuses_nodes (uniid : nat → string) (W : World)
  (b : each_block) (vars : variables) (st : each_state)
  (res : lookup_result) (a : nat) (items ks : list value)
  (pre post : list node) :
  getValueFromExpression W vars (arrayName b) = Normal res →
  value_of res = VObj a →
  arrays W !! a = Some items →
  Forall2 (keyed (hidden_keys st)) items ks →
  Forall (fun it => structuredClone_ok W it = true) items →
  ks ≡ₚ key_of_record <$> domNodes st →
  NoDup (key_of_record <$> domNodes st) →
  NoDup (node_of <$> domNodes st) →
  childNodes (dom st) = pre ++ blockStart b :: post →
  NoDup (childNodes (dom st)) →
  blockStart b ∉ node_of <$> domNodes st →
  ∃ st', update uniid W b vars st = Return st'
         ∧ next_node st' = next_node st
         ∧ (∀ i it k, items !! i = Some it → ks !! i = Some k →
              ∃ old r', old ∈ domNodes st ∧ key_of_record old = k
                        ∧ domNodes st' !! i = Some r'
                        ∧ node_of r' = node_of old
                        ∧ item (data r') = it ∧ index (data r') = i)
         ∧ childNodes (dom st') =
             outside (node_of <$> domNodes st) pre
             ++ blockStart b :: (node_of <$> domNodes st')
             ++ outside (node_of <$> domNodes st) post.
Proof.
  intros Hval Hobj Harr Hkeyed Hclone Hperm Hndk Hndn Hcs Hndc Hb.
  pose proof (Forall2_length _ _ _ Hkeyed) as Hlen.
  assert (∀ k, k ∈ ks → is_Some (map_get (entry_of <$> domNodes st) k)) as Hin.
  { intros k Hk. apply map_get_entries_is_Some; [done|]. by rewrite <- Hperm. }
  unfold update, newItems_of. rewrite Hval, Hobj. simpl. rewrite Harr.
  rewrite (mint_all_keyed _ _ _ _ _ Hkeyed).
  rewrite (map_of_entries _ Hndk).
  destruct (reconcile_from_all_hit W b (length items) items ks 0
              {| oldNodeMap := entry_of <$> domNodes st; newDomNodes := [];
                 world := st |})
    as (ls & -> & Hnew & Hd & Hn & Hh & Hu & Hmap).
  { exact Hkeyed. }
  { exact Hclone. }
  { by rewrite Hperm. }
  { exact Hin. }
  simpl in *.
  assert (oldNodeMap ls = []) as ->.
  { apply elem_of_nil_inv. intros e He. apply Hmap in He as [He Hne].
    apply Hne. rewrite Hperm.
    apply list_elem_of_fmap in He as (r & -> & Hr). simpl.
    apply list_elem_of_fmap. by exists r. }
  simpl.
  pose proof (reused_nodes_permutation (domNodes st) items ks 0 Hndk Hlen Hperm)
    as Hnodes.
  rewrite <- Hnew in Hnodes.
  assert (outside (node_of <$> newDomNodes ls) pre
          = outside (node_of <$> domNodes st) pre
          ∧ outside (node_of <$> newDomNodes ls) post
            = outside (node_of <$> domNodes st) post) as [Hop Hopost].
  { split; unfold outside; apply list_filter_iff; intros x; by rewrite Hnodes. }
  rewrite (place_after_marker b (newDomNodes ls) (dom (world ls)) pre post).
  - eexists. split; [reflexivity|]. simpl.
    split; [done|]. split; [|by rewrite Hop, Hopost].
    intros i it k Hi Hk.
    destruct (reused_lookup (entry_of <$> domNodes st) items ks 0 i it k
                Hin Hi Hk) as (old & Hold & Hl).
    apply map_get_entries_Some in Hold as [Hold Hkey].
    exists old. eexists. rewrite Hnew.
    split; [done|]. split; [done|]. split; [exact Hl|]. done.
  - by rewrite Hnodes.
  - by rewrite Hd.
  - by rewrite Hd.
  - by rewrite Hnodes.
Qed.

Lemma keyed_reorder_reuses_nodes_witness :
  ∃ st', update (fun _ => "k") (todos_world (VObj 1) [VObj 12; VObj 11])
           list_block (StoreProxy 0) rendered_twice = Return st'
         ∧ next_node st' = 23
         ∧ node_of <$> domNodes st' = [22; 21]
         ∧ childNodes (dom st') = [0; 22; 21; 5].
Proof.
  destruct (keyed_reorder_reuses_nodes (fun _ => "k")
              (todos_world (VObj 1) [VObj 12; VObj 11]) list_block
              (StoreProxy 0) rendered_twice
              {| has := true; value_of := VObj 1 |} 1
              [VObj 12; VObj 11] [VStr "k2"; VStr "k1"] [] [21; 22; 5])
    as (st' & Hup & Hn & _ & _).
  - vm_compute. reflexivity.
  - reflexivity.
  - vm_compute. reflexivity.
  - repeat constructor.
    + exists 12. repeat split; vm_compute; reflexivity.
    + exists 11. repeat split; vm_compute; reflexivity.
  - repeat constructor; vm_compute; reflexivity.
  - simpl. apply perm_swap.
  - apply (bool_decide_unpack _). vm_compute. exact I.
  - apply (bool_decide_unpack _). vm_compute. exact I.
  - reflexivity.
  - apply (bool_decide_unpack _). vm_compute. exact I.
  - apply (bool_decide_unpack _). vm_compute. exact I.
  - exists st'. split; [exact Hup|]. split; [exact Hn|].
    vm_compute in Hup. injection Hup as <-. split; reflexivity.
Defined.

Lemma unmatched_item_node_iff_length_changed_witness :
  (∃ st', update (fun _ => "k") (todos_world (VObj 1) [VNum 1; VNum 2])
            list_block (StoreProxy 0) unrendered = Return st'
          ∧ ∃ r, r ∈ domNodes st' ∧ index (data r) = 0
                 ∧ item (data r) = VNum 1
                 ∧ 20 ≤ node_of r
                 ∧ node_of r ∈ childNodes (dom st')
                 ∧ CloneNode (node_of r) ∈ effects st'
                 ∧ ParseNode (node_of r) ∈ effects st')
  ∧ (∃ st', update (fun _ => "k") (todos_world (VObj 1) [VNum 4])
              list_block (StoreProxy 0) rendered_three = Return st'
            ∧ (∀ r, r ∈ domNodes st' → index (data r) ≠ 0)
            ∧ next_node st' = 22).
Proof.
  split.
  - eexists. split; [vm_compute; reflexivity|].
    match goal with
    | |- ∃ r, r ∈ domNodes ?s ∧ _ =>
        pose proof (unmatched_item_node_iff_length_changed (fun _ => "k")
                      (todos_world (VObj 1) [VNum 1; VNum 2]) list_block
                      (StoreProxy 0) unrendered s
                      {| has := true; value_of := VObj 1 |} 1
                      [VNum 1; VNum 2] 0 (VNum 1) (VNum 1)) as H
    end.
    destruct H as (r & Hr & Hi & Hit & Hn & Hc & He1 & _ & _ & He4);
      try (vm_compute; reflexivity).
    exists r. change (next_node unrendered) with 20 in Hn.
    repeat split; try done. lia.
  - eexists. split; [vm_compute; reflexivity|].
    match goal with
    | |- (∀ r, r ∈ domNodes ?s → _) ∧ _ =>
        pose proof (unmatched_item_node_iff_length_changed (fun _ => "k")
                      (todos_world (VObj 1) [VNum 4]) list_block
                      (StoreProxy 0) rendered_three s
                      {| has := true; value_of := VObj 1 |} 1
                      [VNum 4] 0 (VNum 4) (VNum 4)) as H
    end.
    apply H; vm_compute; reflexivity.
Defined.

(** A falsy value that is not an array is replaced by an empty array:
    nothing is logged and nothing is rendered. *)
Lemma update_falsy_source_renders_nothing (uniid : nat → string) :
  update uniid (todos_world (VNum 0) []) list_block (StoreProxy 0) unrendered
  = Return unrendered.
Proof. vm_compute. reflexivity. Qed.

(** C10, at a source that is the number 5: [update()] logs the error and
    then calls [forEach] on the number, which is a TypeError that nothing
    catches. *)
Theorem update_throws_on_number_source (uniid : nat → string) :
  update uniid (todos_world (VNum 5) []) list_block (StoreProxy 0) unrendered
  = Throw TypeError
      (with_effects
         [ConsoleError "todos: is not an array at {for:each todo of todos}"]
         unrendered).
Proof. vm_compute. reflexivity. Qed.

End EachBlockFacts.

(** ** Further properties of the store *)

Module StoreLaws.
Import Store JSFacts StoreFacts.

Lemma subscribers_get_set_eq (m : list (string * list cb)) (k : string)
  (x : list cb) :
  subscribers_get (subscribers_set m k x) k = Some x.
Proof.
  induction m as [|[k0 x0] m IH]; simpl.
  - by rewrite bool_decide_eq_true_2.
  - destruct (bool_decide (k0 = k)) eqn:E; simpl; rewrite E; [done|apply IH].
Qed.

Lemma subscribers_get_set_ne (m : list (string * list cb)) (k k' : string)
  (x : list cb) :
  k' ≠ k → subscribers_get (subscribers_set m k x) k' = subscribers_get m k'.
Proof.
  intros Hne. induction m as [|[k0 x0] m IH]; simpl.
  - by rewrite bool_decide_eq_false_2.
  - destruct (bool_decide (k0 = k)) eqn:E; simpl.
    + apply bool_decide_eq_true in E. subst k0.
      by rewrite bool_decide_eq_false_2 by done.
    + destruct (bool_decide (k0 = k')); [done|apply IH].
Qed.

(** The set of [key] after [subscribe(key, c)]: the callback is added at
    the end unless it is there. *)
Lemma subscribe_get (k : string) (c : cb) (s : ReactiveState) :
  let old := default [] (subscribers_get (subscribers s) k) in
  subscribers_get (subscribers (subscribe k c s)) k
  = Some (if bool_decide (c ∈ old) then old else old ++ [c]).
Proof.
  unfold subscribe.
  destruct (subscribers_get (subscribers s) k) as [set|] eqn:E; simpl.
  - rewrite E. simpl. destruct (bool_decide (c ∈ set)); simpl.
    + done.
    + apply subscribers_get_set_eq.
  - rewrite subscribers_get_set_eq. simpl.
    apply subscribers_get_set_eq.
Qed.

(** X1: [subscribe] is idempotent: a second [subscribe(key, c)] with the
    same key and callback leaves the store as the first one made it. *)
Theorem subscribe_twice_is_once (k : string) (c : cb) (s : ReactiveState) :
  subscribe k c (subscribe k c s) = subscribe k c s.
Proof.
  pose proof (subscribe_get k c s) as Hget. simpl in Hget.
  set (s1 := subscribe k c s) in *. clearbody s1.
  unfold subscribe. rewrite Hget. simpl.
  rewrite bool_decide_eq_true_2.
  - by destruct s1.
  - rewrite Hget. simpl.
    destruct (bool_decide (c ∈ default [] (subscribers_get (subscribers s) k)))
      eqn:E.
    + by apply bool_decide_eq_true in E.
    + apply elem_of_app. right. left.
Qed.





(** X5: the handle returned by [subscribe(key, c)] works: it removes [c],
    and only [c], from the subscribers of [key], keeps the order of the
    others, and leaves the sets of the other keys, the state and the
    expressions alone. *)
Theorem subscribe_then_unsubscribe (k : string) (c : cb) (s : ReactiveState) :
  ∃ s', subscribe_unsubscribe k c (subscribe k c s) = Return s'
        ∧ subscribers_get (subscribers s') k
          = Some (filter (fun x => x ≠ c)
                    (default [] (subscribers_get (subscribers s) k)))
        ∧ (∀ k', k' ≠ k →
             subscribers_get (subscribers s') k'
             = subscribers_get (subscribers s) k')
        ∧ state s' = state s ∧ expressions s' = expressions s
        ∧ fired s' = fired s.
Proof.
  pose proof (subscribe_get k c s) as Hget. simpl in Hget.
  unfold subscribe_unsubscribe. rewrite Hget. eexists. split; [reflexivity|].
  simpl. split; [|split].
  - rewrite subscribers_get_set_eq. f_equal.
    destruct (bool_decide (c ∈ default [] (subscribers_get (subscribers s) k)));
      [done|].
    rewrite filter_app, filter_cons_False, filter_nil, app_nil_r; [done|].
    intros H. by apply H.
  - intros k' Hne. rewrite subscribers_get_set_ne by done.
    unfold subscribe.
    destruct (subscribers_get (subscribers s) k) as [set|] eqn:E; simpl.
    + rewrite E. simpl. destruct (bool_decide (c ∈ set)); simpl; [done|].
      by rewrite subscribers_get_set_ne.
    + rewrite subscribers_get_set_eq. simpl.
      by rewrite !subscribers_get_set_ne.
  - unfold subscribe.
    destruct (subscribers_get (subscribers s) k) as [set|] eqn:E; simpl.
    + rewrite E. simpl. by destruct (bool_decide (c ∈ set)).
    + by rewrite subscribers_get_set_eq.
Qed.


End StoreLaws.


(** ** Further properties of scopes and of path lookup *)

Module ScopeLaws.
Import Store Heap Text Registrar Evaluator JSFacts StoreFacts StoreLaws.



End ScopeLaws.

(** ** Paths: [getValueFromExpression] and [getArgumentValue] *)

Module PathLaws.
Import Store Heap Text Chars Registrar Evaluator.

Lemma of_string_app (s1 s2 : string) :
  of_string (s1 +:+ s2) = of_string s1 ++ of_string s2.
Proof. induction s1 as [|c s1 IH]; simpl; [done|]. by rewrite <- IH. Qed.

Lemma of_string_dotted (a b : string) :
  of_string (a +:+ "." +:+ b) = of_string a ++ "."%char :: of_string b.
Proof. by rewrite of_string_app. Qed.

Lemma to_of_string (s : string) : to_string (of_string s) = s.
Proof. apply string_of_list_ascii_of_string. Qed.

Lemma of_to_string (l : chars) : of_string (to_string l) = l.
Proof. apply list_ascii_of_string_of_list_ascii. Qed.

Lemma of_string_nil (s : string) : of_string s = [] → s = "".
Proof. by destruct s. Qed.

Lemma split_path_plain (s cur : chars) :
  Forall (fun c => plain c) s →
  split_path_from s cur = [reverse cur ++ s].
Proof.
  revert cur. induction s as [|c s IH]; intros cur H.
  - simpl. by rewrite app_nil_r.
  - inversion_clear H as [|? ? (Hd & Hl & Hr) H'].
    cbn [split_path_from]. rewrite Hd, Hl, Hr. cbn [orb].
    rewrite (IH _ H'), reverse_cons. by rewrite <- app_assoc.
Qed.

Lemma split_path_dot (a b cur : chars) :
  Forall (fun c => plain c) a →
  split_path_from (a ++ "."%char :: b) cur
  = (reverse cur ++ a) :: split_path_from b [].
Proof.
  revert cur. induction a as [|c a IH]; intros cur H.
  - simpl. by rewrite app_nil_r.
  - inversion_clear H as [|? ? (Hd & Hl & Hr) H'].
    cbn [split_path_from app]. rewrite Hd, Hl, Hr. cbn [orb].
    rewrite (IH _ H'), reverse_cons. by rewrite <- app_assoc.
Qed.

Lemma path_parts_plain (name : string) :
  name ≠ "" → Forall (fun c => plain c) (of_string name) →
  path_parts name = [name].
Proof.
  intros Hne H. unfold path_parts.
  rewrite (split_path_plain _ [] H). simpl. rewrite to_of_string.
  by rewrite filter_cons_True.
Qed.

Lemma path_parts_two (a b : string) :
  a ≠ "" → b ≠ "" →
  Forall (fun c => plain c) (of_string a) →
  Forall (fun c => plain c) (of_string b) →
  path_parts (a +:+ "." +:+ b) = [a; b].
Proof.
  intros Ha Hb Fa Fb. unfold path_parts.
  rewrite of_string_dotted.
  rewrite (split_path_dot _ _ [] Fa), (split_path_plain _ [] Fb). simpl.
  rewrite !to_of_string.
  rewrite filter_cons_True by done. by rewrite filter_cons_True.
Qed.

Lemma first_quoted_none (s : chars) :
  Forall (fun c => is_quote c = false) s → first_quoted s = None.
Proof.
  induction 1 as [|c s Hc _ IH]; [done|].
  cbn [first_quoted]. by rewrite Hc.
Qed.

Lemma before_dot (a b : chars) :
  Forall (fun c => is_dot c = false) a →
  before is_dot (a ++ "."%char :: b) = a.
Proof.
  induction 1 as [|c a Hc _ IH]; [done|].
  cbn [before app]. by rewrite Hc, IH.
Qed.

Lemma after_last_dot_plain (c cur : chars) :
  Forall (fun c => is_dot c = false) c →
  after_last_dot_from c cur = reverse cur ++ c.
Proof.
  intros H. revert cur.
  induction H as [|x c Hx _ IH]; intros cur.
  - simpl. by rewrite app_nil_r.
  - cbn [after_last_dot_from]. rewrite Hx, IH, reverse_cons.
    by rewrite <- app_assoc.
Qed.

Lemma after_last_dot_app (p c cur : chars) :
  Forall (fun c => is_dot c = false) c →
  after_last_dot_from (p ++ "."%char :: c) cur = c.
Proof.
  intros H. revert cur. induction p as [|x p IH]; intros cur.
  - cbn [after_last_dot_from app]. change (is_dot "."%char) with true.
    cbn iota. by rewrite after_last_dot_plain.
  - cbn [after_last_dot_from app]. destruct (is_dot x); apply IH.
Qed.

Lemma includes_dot (a b : chars) :
  includes_char is_dot (a ++ "."%char :: b) = true.
Proof.
  unfold includes_char. rewrite existsb_app. simpl.
  by rewrite orb_true_r.
Qed.

Lemma dotted_not_Boolean (s : string) :
  includes_char is_dot (of_string s) = true →
  existsb (fun b => bool_decide (b = s)) Booleans = false.
Proof.
  intros H. unfold Booleans. simpl.
  repeat (rewrite bool_decide_eq_false_2;
          [|intros <-; vm_compute in H; discriminate]).
  done.
Qed.

(** X8: a name without a dot or a bracket is always reported as found,
    with the value of [variables[name]], which is [undefined] for a name
    that [variables] does not have; the empty path reads the key
    [undefined]. *)
Theorem getValueFromExpression_plain_name (W : World) (vars : variables)
  (name : string) :
  name ≠ "" → Forall (fun c => plain c) (of_string name) →
  getValueFromExpression W vars name
  = Normal {| has := true; value_of := var_get W vars name |}
  ∧ getValueFromExpression W vars ""
    = Normal {| has := true; value_of := var_get W vars "undefined" |}.
Proof.
  intros Hne H. split; [|done].
  unfold getValueFromExpression. by rewrite (path_parts_plain _ Hne H).
Qed.

Lemma getValueFromExpression_plain_name_witness :
  getValueFromExpression Examples.one_object_world (StoreProxy 0) "missing"
  = Normal {| has := true; value_of := VUndefined |}.
Proof.
  refine (proj1 (getValueFromExpression_plain_name Examples.one_object_world
                   (StoreProxy 0) "missing" _ _)).
  - discriminate.
  - apply (bool_decide_unpack _). vm_compute. exact I.
Defined.

(** X9: a path [a.b] is not found exactly when [variables] has no [a];
    when it has, the result is the read of [b] from [variables[a]], and
    that read is a TypeError when [variables[a]] is [undefined] or [null]:
    the guard against them covers every step but the last. *)
Theorem getValueFromExpression_two_parts (W : World) (vars : variables)
  (a b : string) :
  a ≠ "" → b ≠ "" →
  Forall (fun c => plain c) (of_string a) →
  Forall (fun c => plain c) (of_string b) →
  getValueFromExpression W vars (a +:+ "." +:+ b)
  = if var_in W vars a then
      match var_get W vars a with
      | VUndefined | VNull => Abrupt TypeError
      | v =>
          match js_get W v b with
          | Normal x => Normal {| has := true; value_of := x |}
          | Abrupt e => Abrupt e
          end
      end
    else Normal {| has := false; value_of := VUndefined |}.
Proof.
  intros Ha Hb Fa Fb. unfold getValueFromExpression.
  rewrite (path_parts_two _ _ Ha Hb Fa Fb). simpl.
  destruct (var_in W vars a); [|done].
  by destruct (var_get W vars a).
Qed.

Lemma getValueFromExpression_two_parts_witness :
  getValueFromExpression Examples.step_world (StoreProxy 0) "user.name"
  = Normal {| has := false; value_of := VUndefined |}.
Proof.
  refine (getValueFromExpression_two_parts Examples.step_world
            (StoreProxy 0) "user" "name" _ _ _ _); try discriminate;
    apply (bool_decide_unpack _); vm_compute; exact I.
Defined.

Section WithHost.

Variable parsePrimitive : string → completion value.
Variable evaluateExpression : World → string → variables → value.

Lemma getArgumentValue_dotted_path (W : World) (vars : variables)
  (a p c : chars) :
  Forall (fun x => is_quote x = false) (a ++ "."%char :: p ++ c) →
  Forall (fun x => is_dot x = false) a →
  Forall (fun x => is_dot x = false) c →
  (p = [] ∨ ∃ p', p = p' ++ ["."%char]) →
  let arg := to_string (a ++ "."%char :: p ++ c) in
  getArgumentValue parsePrimitive evaluateExpression W arg vars
  = match js_in W (to_string c) (var_get W vars (to_string a)) with
    | Abrupt e => (Abrupt e, [])
    | Normal false =>
        (Normal VUndefined,
         [("Error: undefined reading arguments " +:+ arg +:+ ".")%string])
    | Normal true => (Normal (evaluateExpression W arg vars), [])
    end.
Proof.
  intros Hq Ha Hc Hp arg. unfold getArgumentValue.
  assert (Harg : of_string arg = a ++ "."%char :: p ++ c)
    by apply of_to_string.
  rewrite dotted_not_Boolean by (rewrite Harg; apply includes_dot).
  rewrite Harg, (first_quoted_none _ Hq), includes_dot, (before_dot _ _ Ha).
  assert (Hl : after_last_dot (a ++ "."%char :: p ++ c) = c).
  { unfold after_last_dot. destruct Hp as [->|[p' ->]].
    - simpl. by apply after_last_dot_app.
    - replace (a ++ "."%char :: (p' ++ ["."%char]) ++ c)
        with ((a ++ "."%char :: p') ++ "."%char :: c)
        by (by rewrite <- !app_assoc).
      by apply after_last_dot_app. }
  by rewrite Hl.
Qed.

(** X10: an argument with dots is checked by looking for its last segment
    in the value of its first segment, whatever is between them: the
    check is a TypeError when that value is no object, and when the
    segment is not there the argument is [undefined], with an error
    logged, and nothing is evaluated. *)
Theorem getArgumentValue_checks_first_and_last (W : World)
  (vars : variables) (a mid c : string) :
  Forall (fun x => is_quote x = false) (of_string (a +:+ mid +:+ c)) →
  Forall (fun x => is_dot x = false) (of_string a) →
  Forall (fun x => is_dot x = false) (of_string c) →
  let arg := a +:+ "." +:+ mid +:+ "." +:+ c in
  getArgumentValue parsePrimitive evaluateExpression W arg vars
  = match js_in W c (var_get W vars a) with
    | Abrupt e => (Abrupt e, [])
    | Normal false =>
        (Normal VUndefined,
         [("Error: undefined reading arguments " +:+ arg +:+ ".")%string])
    | Normal true => (Normal (evaluateExpression W arg vars), [])
    end.
Proof.
  intros Hq Ha Hc arg.
  rewrite !of_string_app in Hq.
  apply Forall_app in Hq as [Hqa Hq]. apply Forall_app in Hq as [Hqm Hqc].
  pose proof (getArgumentValue_dotted_path W vars (of_string a)
                (of_string mid ++ ["."%char]) (of_string c)) as H.
  assert (E : to_string (of_string a ++ "."%char
                         :: (of_string mid ++ ["."%char]) ++ of_string c)
              = arg).
  { unfold arg. rewrite <- (to_of_string (a +:+ _)).
    f_equal. rewrite !of_string_dotted. by rewrite <- app_assoc. }
  simpl in H. rewrite E, !to_of_string in H. apply H; try done.
  - apply Forall_app. split; [done|]. constructor; [done|].
    apply Forall_app. split; [|done].
    apply Forall_app. split; [done|]. by constructor.
  - right. by eexists.
Qed.

End WithHost.

Lemma getArgumentValue_checks_first_and_last_witness :
  getArgumentValue (fun _ => Normal VUndefined) (fun _ _ _ => VStr "value")
    Examples.one_object_world "a.b.x" (StoreProxy 0)
  = (Normal (VStr "value"), []).
Proof.
  refine (getArgumentValue_checks_first_and_last
            (fun _ => Normal VUndefined) (fun _ _ _ => VStr "value")
            Examples.one_object_world (StoreProxy 0) "a" "b" "x" _ _ _);
    apply (bool_decide_unpack _); vm_compute; exact I.
Defined.

End PathLaws.

(** ** The tokens of an expression *)

Module TokenLaws.
Import Store Heap Text Chars Registrar PathLaws.

Lemma split_tokens_from_chars (s cur : chars) (in_sep : bool) :
  Forall (fun c => is_token_char c = true) cur →
  Forall (Forall (fun c => is_token_char c = true))
    (split_tokens_from s cur in_sep).
Proof.
  revert cur in_sep. induction s as [|c s IH]; intros cur in_sep Hcur.
  - constructor; [|done]. by apply Forall_reverse.
  - cbn [split_tokens_from]. destruct (is_token_char c) eqn:Ec.
    + apply IH. by constructor.
    + destruct in_sep; [by apply IH|].
      constructor; [by apply Forall_reverse|by apply IH].
Qed.

Lemma raw_tokens_chars (expression : string) :
  Forall (fun t => Forall (fun c => is_token_char c = true) (of_string t))
    (raw_tokens expression).
Proof.
  unfold raw_tokens. apply Forall_forall.
  intros t [_ Ht]%list_elem_of_filter.
  apply list_elem_of_fmap in Ht as (l & -> & Hl). rewrite of_to_string.
  unfold split_tokens in Hl.
  eapply Forall_forall in Hl; [exact Hl|].
  apply split_tokens_from_chars. constructor.
Qed.

Lemma unique_from_Forall (P : string → Prop) (seen l : list string) :
  Forall P l → Forall P (unique_from seen l).
Proof.
  intros H. revert seen. induction H as [|x l Hx _ IH]; intros seen; simpl.
  - constructor.
  - destruct (bool_decide (x ∈ seen)); [apply IH|].
    constructor; [done|apply IH].
Qed.

Lemma before_Forall (P : ascii → Prop) (f : ascii → bool) (s : chars) :
  Forall P s → Forall P (before f s).
Proof.
  induction 1 as [|c s Hc _ IH]; simpl; [constructor|].
  destruct (f c); by constructor.
Qed.

Lemma before_no_sep (f : ascii → bool) (s : chars) :
  Forall (fun c => f c = false) (before f s).
Proof.
  induction s as [|c s IH]; simpl; [constructor|].
  destruct (f c) eqn:E; by constructor.
Qed.

Lemma includes_char_false (f : ascii → bool) (s : chars) :
  includes_char f s = false → Forall (fun c => f c = false) s.
Proof.
  unfold includes_char. induction s as [|c s IH]; simpl; [constructor|].
  intros [? ?]%orb_false_iff. constructor; auto.
Qed.

Lemma root_chars (token : string) :
  Forall (fun c => is_token_char c = true) (of_string token) →
  Forall (fun c => name_char c) (of_string (root token)).
Proof.
  intros H. unfold root.
  destruct (includes_char is_dot (of_string token)) eqn:Ed.
  - rewrite of_to_string. apply Forall_and. split.
    + by apply before_Forall.
    + apply before_no_sep.
  - apply includes_char_false in Ed.
    destruct (includes_char is_lbracket (of_string token)).
    + rewrite of_to_string. apply Forall_and. split.
      * by apply before_Forall.
      * by apply before_Forall.
    + by apply Forall_and.
Qed.

Lemma filter_tokens_Forall (P : string → Prop) (W : World)
  (vars : variables) (stateManager : value) (tokens ts : list string) :
  Forall P tokens →
  filter_tokens W vars stateManager tokens = Normal ts → Forall P ts.
Proof.
  intros H. revert ts. induction H as [|t l Ht _ IH]; intros ts; simpl.
  - by intros [= <-].
  - destruct (keep_token W vars stateManager t) as [b|]; [|done].
    destruct (filter_tokens W vars stateManager l) as [l'|]; [|done].
    intros [= <-]. specialize (IH _ eq_refl).
    destruct b; [by constructor|done].
Qed.

(** X11: every key under which [registerDependencies] can register a
    callback is made of letters, [_] and [$] only: the tokens are cut at
    every other character, digits included, and then at the first dot, so
    that a state key with a digit or another such character in it is
    never among them. *)
Theorem getTokensFromExpression_alphabet (W : World) (expression : string)
  (vars : variables) (stateManager : value) (tokens : list string) :
  getTokensFromExpression W expression vars stateManager = Normal tokens →
  Forall (fun t => Forall (fun c => name_char c) (of_string t)) tokens.
Proof.
  unfold getTokensFromExpression. apply filter_tokens_Forall.
  apply Forall_fmap. unfold unique.
  eapply Forall_impl;
    [apply unique_from_Forall, raw_tokens_chars|].
  intros t Ht. by apply root_chars.
Qed.

Lemma getTokensFromExpression_alphabet_witness :
  Forall (fun t => Forall (fun c => name_char c) (of_string t)) ["a"; "b"].
Proof.
  apply (getTokensFromExpression_alphabet Examples.two_keys_world
           "{a + b2.c}" (StoreProxy 0) (VObj 0)).
  vm_compute. reflexivity.
Defined.

End TokenLaws.

(** ** Interpolation *)

Module InterpolationLaws.
Import Text Interpolation PathLaws.

Section WithHost.

Variable render : string → string.

Lemma replace_from_skip (n : nat) (s : chars) :
  replace_from render n s = replace_from render 0 (drop n s).
Proof.
  revert n. induction s as [|c s IH]; intros [|n]; try done.
  cbn [replace_from drop]. apply IH.
Qed.

Lemma replace_from_no_match (s : chars) :
  brace_matches_from 0 s = [] → replace_from render 0 s = s.
Proof.
  induction s as [|c s IH]; [done|]. cbn [brace_matches_from replace_from].
  destruct (is_lbrace c).
  - destruct (brace_length s); [done|]. intros H. by rewrite IH.
  - intros H. by rewrite IH.
Qed.

Lemma nonbrace_run_body (body post : chars) :
  Forall (fun c => is_brace c = false) body →
  nonbrace_run (body ++ "}"%char :: post) = length body.
Proof.
  induction 1 as [|c body Hc _ IH]; [done|].
  cbn [nonbrace_run app length]. by rewrite Hc, IH.
Qed.

Lemma brace_length_body (body post : chars) :
  body ≠ [] → Forall (fun c => is_brace c = false) body →
  brace_length (body ++ "}"%char :: post) = Some (S (length body)).
Proof.
  intros Hne H. unfold brace_length.
  rewrite !(nonbrace_run_body _ post H).
  destruct body as [|b body]; [done|].
  cbn [length app drop]. by rewrite drop_app_length.
Qed.

Lemma replace_from_plain_prefix (pre s : chars) :
  Forall (fun c => is_lbrace c = false) pre →
  replace_from render 0 (pre ++ s) = pre ++ replace_from render 0 s.
Proof.
  induction 1 as [|c pre Hc _ IH]; [done|].
  cbn [replace_from app]. by rewrite Hc, IH.
Qed.

Lemma replace_from_match (body post : chars) :
  body ≠ [] → Forall (fun c => is_brace c = false) body →
  replace_from render 0 ("{"%char :: body ++ "}"%char :: post)
  = of_string (render (to_string (trim body))) ++ replace_from render 0 post.
Proof.
  intros Hne H. cbn [replace_from].
  change (is_lbrace "{"%char) with true. cbn iota.
  rewrite (brace_length_body _ post Hne H). cbn [pred].
  rewrite take_app_length, replace_from_skip. f_equal.
  replace (S (length body)) with (length (body ++ ["}"%char]))
    by (rewrite length_app; simpl; lia).
  replace (body ++ "}"%char :: post) with ((body ++ ["}"%char]) ++ post)
    by (by rewrite <- app_assoc).
  by rewrite drop_app_length.
Qed.

(** X12: a template in which [braceRegex] finds nothing is returned as it
    is; in particular a brace pair with nothing between, or braces that
    do not close, are left in the text. *)
Theorem replaceVariables_without_match (template : string) :
  brace_matches template = None →
  replaceVariables render template = template.
Proof.
  unfold brace_matches, replaceVariables. intros H.
  rewrite replace_from_no_match; [apply to_of_string|].
  by destruct (brace_matches_from 0 (of_string template)).
Qed.

(** X13: the text before the first opening brace is kept, an
    interpolation [{body}] is replaced by the text of [body] trimmed, as
    the host evaluates it, and the rest of the template is treated in the
    same way, whatever the replacement text contains. *)
Theorem replaceVariables_first_match (pre body post : string) :
  Forall (fun c => is_lbrace c = false) (of_string pre) →
  body ≠ "" →
  Forall (fun c => is_brace c = false) (of_string body) →
  replaceVariables render (pre +:+ "{" +:+ body +:+ "}" +:+ post)
  = pre +:+ render (to_string (trim (of_string body)))
    +:+ replaceVariables render post.
Proof.
  intros Hpre Hne Hbody. unfold replaceVariables.
  rewrite <- (to_of_string (pre +:+ _ +:+ to_string _)).
  f_equal. rewrite !of_string_app, of_to_string.
  change (of_string "{") with ["{"%char].
  change (of_string "}") with ["}"%char].
  rewrite (replace_from_plain_prefix _ _ Hpre). f_equal.
  cbn [app]. apply replace_from_match; [|done].
  intros E. by apply of_string_nil in E.
Qed.

End WithHost.

Lemma replaceVariables_without_match_witness :
  replaceVariables (fun e => e) "a {} b { c" = "a {} b { c".
Proof.
  apply (replaceVariables_without_match (fun e => e) "a {} b { c").
  vm_compute. reflexivity.
Defined.

Lemma replaceVariables_first_match_witness :
  replaceVariables (fun e => if bool_decide (e = "n") then "3" else "?")
    "count: { n }!"
  = "count: 3!".
Proof.
  etransitivity.
  - apply (replaceVariables_first_match
             (fun e => if bool_decide (e = "n") then "3" else "?")
             "count: " " n " "!").
    + apply (bool_decide_unpack _). vm_compute. exact I.
    + discriminate.
    + apply (bool_decide_unpack _). vm_compute. exact I.
  - vm_compute. reflexivity.
Defined.

Lemma find_brace_none (s : chars) (pos : nat) :
  find_brace s pos = None ↔ brace_matches_from 0 s = [].
Proof.
  revert pos. induction s as [|c s IH]; intros pos; [done|].
  cbn [find_brace brace_matches_from].
  destruct (is_lbrace c); [|apply IH].
  destruct (brace_length s); [|apply IH]. split; discriminate.
Qed.

Lemma brace_matches_from_skip (n : nat) (s : chars) :
  brace_matches_from n s = brace_matches_from 0 (drop n s).
Proof.
  revert n. induction s as [|c s IH]; intros [|n]; try done.
  cbn [brace_matches_from drop]. apply IH.
Qed.

Lemma brace_matches_from_suffix (n : nat) (s : chars) :
  brace_matches_from 0 s = [] → brace_matches_from 0 (drop n s) = [].
Proof.
  revert n. induction s as [|c s IH]; intros n H; [by destruct n|].
  destruct n as [|n]; [done|]. cbn [drop]. apply IH.
  cbn [brace_matches_from] in H.
  destruct (is_lbrace c); [|done].
  by destruct (brace_length s).
Qed.

Lemma brace_matches_is_Some (template : string) :
  is_Some (brace_matches template)
  ↔ brace_matches_from 0 (of_string template) ≠ [].
Proof.
  unfold brace_matches.
  destruct (brace_matches_from 0 (of_string template)); split;
    intros H; first [done | by destruct H | by eexists].
Qed.

(** X14: from [lastIndex] 0 the guard of [parseNode] binds exactly the
    templates in which [braceRegex] has a match; whatever [lastIndex] it
    starts from it leaves 0, and it never binds a template without a
    match. *)
Theorem binds_resets_lastIndex (template : string) :
  ((binds 0 template).1 = true ↔ is_Some (brace_matches template))
  ∧ ∀ lastIndex,
      (binds lastIndex template).2 = 0
      ∧ ((binds lastIndex template).1 = true →
         is_Some (brace_matches template)).
Proof.
  split.
  - unfold binds, test. cbn [Nat.ltb Nat.leb]. rewrite drop_0.
    rewrite brace_matches_is_Some.
    destruct (find_brace (of_string template) 0) eqn:E; simpl.
    + split; [|done]. intros _ H.
      apply (find_brace_none _ 0) in H. congruence.
    + split; [done|]. intros H. by apply find_brace_none in E.
  - intros L. unfold binds, test.
    destruct (length (of_string template) <? L); [by split|].
    destruct (find_brace (drop L (of_string template)) L) eqn:E;
      simpl; (split; [done|]); [|done].
    intros _. apply brace_matches_is_Some. intros H.
    apply (brace_matches_from_suffix L) in H.
    apply (find_brace_none _ L) in H. congruence.
Qed.

Lemma find_brace_match (body post : chars) (pos : nat) :
  body ≠ [] → Forall (fun c => is_brace c = false) body →
  find_brace ("{"%char :: body ++ "}"%char :: post) pos
  = Some (pos + 1 + S (length body)).
Proof.
  intros Hne H. cbn [find_brace].
  change (is_lbrace "{"%char) with true. cbn iota.
  by rewrite (brace_length_body _ post Hne H).
Qed.

(** X15: the test of a destructuring pattern [{...}] of a for:each
    marker succeeds and leaves [lastIndex] at the end of the pattern; the
    guard of [parseNode] that comes next then starts there, and takes a
    template that is not longer than the pattern as static text, also
    when it has an interpolation. *)
Theorem pattern_test_hides_next_template (body template : string) :
  body ≠ "" →
  Forall (fun c => is_brace c = false) (of_string body) →
  String.length template ≤ String.length body + 2 →
  ∃ lastIndex,
    test 0 (of_string ("{" +:+ body +:+ "}")) = (true, lastIndex)
    ∧ lastIndex = String.length body + 2
    ∧ binds lastIndex template = (false, 0).
Proof.
  intros Hne Hbody Hlen.
  assert (length_of : ∀ s, length (of_string s) = String.length s).
  { induction s as [|c s IH]; simpl; [done|]. by f_equal. }
  exists (String.length body + 2). split; [|split; [done|]].
  - unfold test. cbn [Nat.ltb Nat.leb]. rewrite drop_0.
    change (of_string ("{" +:+ body +:+ "}"))
      with ("{"%char :: of_string (body +:+ "}")).
    rewrite of_string_app. change (of_string "}") with ["}"%char].
    rewrite find_brace_match; [|by intros E%of_string_nil|done].
    rewrite length_of. f_equal. lia.
  - unfold binds, test. rewrite length_of.
    destruct (String.length template <? String.length body + 2) eqn:E;
      [done|].
    apply Nat.ltb_ge in E.
    rewrite drop_ge by (rewrite length_of; lia). done.
Qed.

Lemma pattern_test_hides_next_template_witness :
  is_Some (brace_matches "{title}")
  ∧ ∃ lastIndex,
      test 0 (of_string ("{" +:+ "title" +:+ "}")) = (true, lastIndex)
      ∧ lastIndex = String.length "title" + 2
      ∧ binds lastIndex "{title}" = (false, 0).
Proof.
  split; [by eexists|].
  apply (pattern_test_hides_next_template "title" "{title}").
  - discriminate.
  - apply (bool_decide_unpack _). vm_compute. exact I.
  - simpl. lia.
Defined.

End InterpolationLaws.

(** ** Attributes *)

Module AttributeLaws.
Import Attributes.

Lemma literal_cases (v : string) :
  v ∈ literals ↔ v = "true" ∨ v = "false" ∨ v = "null" ∨ v = "undefined".
Proof.
  unfold literals. rewrite !elem_of_cons, elem_of_nil. tauto.
Qed.

Lemma setAttributes_plain (el : element) (name v : string) :
  v ∉ literals → name ≠ "value" ∨ isInput el = false →
  setAttributes el name v = setAttribute name v el.
Proof.
  intros Hv Hn. rewrite literal_cases in Hv. unfold setAttributes.
  rewrite !bool_decide_eq_false_2 by tauto. simpl.
  assert (bool_decide (name = "value") && isInput el = false) as ->.
  { destruct Hn as [Hn| ->];
      [by rewrite bool_decide_eq_false_2|apply andb_false_r]. }
  destruct (bool_decide (name = "style")) eqn:Es.
  - by apply bool_decide_eq_true_1 in Es as ->.
  - destruct (bool_decide (name = "class")) eqn:Ec; [|done].
    by apply bool_decide_eq_true_1 in Ec as ->.
Qed.

(** X16: [setAttributes] leaves the other attributes as they are; apart
    from the [value] of an input element, a text that is not one of
    [true], [false], [null] and [undefined] becomes the value of the
    attribute, and the attribute never has one of these four texts as its
    value afterwards: [true] gives the empty value and the other three
    remove the attribute. *)
Theorem setAttributes_attribute (el : element) (name v : string) :
  (∀ other, other ≠ name →
     attributes (setAttributes el name v) !! other = attributes el !! other)
  ∧ (name ≠ "value" ∨ isInput el = false →
     (v ∉ literals →
        attributes (setAttributes el name v) !! name = Some v
        ∧ value_property (setAttributes el name v) = value_property el)
     ∧ ∀ lit, lit ∈ literals →
         attributes (setAttributes el name v) !! name ≠ Some lit).
Proof.
  split.
  - intros other Hne. unfold setAttributes.
    repeat match goal with
           | |- context [bool_decide ?P] =>
               let E := fresh "E" in
               destruct (bool_decide P) eqn:E;
               [apply bool_decide_eq_true_1 in E; subst|];
               cbn [orb andb]
           | |- context [if isInput ?e then _ else _] => destruct (isInput e)
           end;
      cbn [setAttribute removeAttribute attributes];
      first [done | by rewrite lookup_insert_ne | by rewrite lookup_delete_ne].
  - intros Hn. split.
    + intros Hv. rewrite (setAttributes_plain _ _ _ Hv Hn). simpl.
      by rewrite lookup_insert_eq.
    + intros lit Hlit.
      destruct (decide (v ∈ literals)) as [Hv|Hv].
      * apply literal_cases in Hv. apply literal_cases in Hlit.
        unfold setAttributes.
        destruct Hv as [->|[->|[->| ->]]]; simpl;
          rewrite ?lookup_insert_eq, ?lookup_delete_eq; try done.
        intros [= E]. subst lit.
        destruct Hlit as [H|[H|[H|H]]]; discriminate H.
      * rewrite (setAttributes_plain _ _ _ Hv Hn). simpl.
        rewrite lookup_insert_eq. by intros [= ->].
Qed.

Lemma setAttributes_attribute_witness :
  let el := {| attributes := {[ "class" := "small" ]}; isInput := false;
               value_property := None |} in
  attributes (setAttributes el "class" "big") !! "class" = Some "big"
  ∧ value_property (setAttributes el "class" "big") = None.
Proof.
  intros el.
  refine (proj1 (proj2 (setAttributes_attribute el "class" "big") _) _).
  - by right.
  - rewrite literal_cases. intros [H|[H|[H|H]]]; discriminate.
Defined.



End AttributeLaws.

(** ** Event attributes *)

Module HandlerLaws.
Import Text Handlers PathLaws.














End HandlerLaws.

(** ** The [each] method of arrays *)

Module EachPrototypeLaws.
Import EachPrototype.

Lemma append_assoc (a b c : string) : (a +:+ b) +:+ c = a +:+ (b +:+ c).
Proof.
  induction a as [|x a IH]; [done|].
  change (String x ((a +:+ b) +:+ c) = String x (a +:+ (b +:+ c))).
  by f_equal.
Qed.

Lemma each_from_app (callback : value → nat → option string)
  (l1 l2 : list value) (i : nat) :
  each_from callback (l1 ++ l2) i
  = each_from callback l1 i +:+ each_from callback l2 (i + length l1).
Proof.
  revert i. induction l1 as [|x l1 IH]; intros i; simpl.
  - by rewrite Nat.add_0_r.
  - rewrite IH, append_assoc. do 3 f_equal. lia.
Qed.

Lemma each_from_shift (callback : value → nat → option string)
  (l : list value) (i k : nat) :
  each_from callback l (i + k)
  = each_from (fun x j => callback x (j + k)) l i.
Proof.
  revert i. induction l as [|x l IH]; intros i; simpl; [done|].
  f_equal. apply (IH (S i)).
Qed.

(** X19: the text that [each] gives for an array is the text of its first
    part followed by the text of the rest, the callback being given, for
    the rest, the positions counted from the length of the first part; an
    element for which the callback returns nothing adds nothing, so that
    the default callback gives the empty text. *)
Theorem each_of_concatenation (callback : value → nat → option string)
  (l1 l2 : list value) :
  each callback (l1 ++ l2)
  = each callback l1 +:+ each (fun x j => callback x (j + length l1)) l2
  ∧ ∀ l, each default_callback l = "".
Proof.
  split.
  - unfold each. by rewrite each_from_app, <- each_from_shift.
  - intros l. unfold each. generalize 0.
    induction l as [|x l IH]; intros i; simpl; [done|]. apply IH.
Qed.

End EachPrototypeLaws.

(** ** A conditional block over a sequence of updates *)

Module IfRunLaws.
Import Dom IfBlock IfRun DomFacts JSFacts IfBlockFacts.

Lemma NoDup_insert_middle (pre post sel : list node) (b : node) :
  NoDup (pre ++ b :: post) → NoDup sel →
  (∀ x, x ∈ sel → x ∉ pre ++ b :: post) →
  NoDup (pre ++ b :: sel ++ post).
Proof.
  intros Hnd Hsel Hdisj.
  apply NoDup_app in Hnd as (Hpre & Hpp & Hpost).
  apply NoDup_cons in Hpost as [Hb Hpost].
  assert (∀ x, x ∈ sel → (x ∉ pre) ∧ (x ≠ b) ∧ (x ∉ post)) as Hd.
  { intros x Hx. specialize (Hdisj x Hx).
    rewrite elem_of_app, elem_of_cons in Hdisj. tauto. }
  apply NoDup_app. split; [done|]. split.
  - intros x Hx. rewrite elem_of_cons, elem_of_app.
    intros [->|[Hs|Hp]].
    + apply (Hpp _ Hx). left.
    + by apply Hd in Hs as [? _].
    + apply (Hpp _ Hx). by right.
  - apply NoDup_cons. split.
    + rewrite elem_of_app. intros [Hs|Hp]; [|done].
      by apply Hd in Hs as (_ & ? & _).
    + apply NoDup_app. split; [done|]. split; [|done].
      intros x Hx. by apply Hd in Hx as (_ & _ & ?).
Qed.

Lemma selected_in_block (b : block) (ev : value) (x : node) :
  x ∈ selected b ev → x ∈ block_nodes b.
Proof.
  unfold selected, block_nodes. rewrite elem_of_app.
  destruct (truthy ev); auto.
Qed.

Lemma selected_NoDup (b : block) (ev : value) :
  NoDup (ifBlock b) → NoDup (elseBlock b) → NoDup (selected b ev).
Proof. unfold selected. by destruct (truthy ev). Qed.

Section Run.

Variable b : block.
Variables pre post : list node.
Hypothesis Hstart : blockStart b ∉ block_nodes b.
Hypothesis Hif : NoDup (ifBlock b).
Hypothesis Helse : NoDup (elseBlock b).
Hypothesis Hdisj : ∀ n, n ∈ ifBlock b → n ∉ elseBlock b.
Hypothesis Hnd : NoDup (pre ++ blockStart b :: post).
Hypothesis Hclean : ∀ x, x ∈ pre ++ post → x ∉ block_nodes b.

Lemma update_keeps_layout (ev : value) (st : block_state) :
  laid_out b pre post st →
  ∃ st', update b ev st = Return st' ∧ laid_out b pre post st'
         ∧ lastEval st' = ev.
Proof.
  intros [Hfr Hcs].
  destruct (strict_eq (lastEval st) ev) eqn:E.
  - exists st. unfold update. rewrite E.
    apply strict_eq_true in E. by repeat split.
  - eexists. split.
    + apply (update_changed b ev st pre
               (selected b (lastEval st) ++ post)); try done.
      * rewrite Hcs. apply NoDup_insert_middle; [done| |].
        -- by apply selected_NoDup.
        -- intros x Hx Hin. apply selected_in_block in Hx.
           rewrite elem_of_app, elem_of_cons in Hin.
           destruct Hin as [Hin|[->|Hin]]; [|done|].
           ++ apply (Hclean x); [|done]. apply elem_of_app. by left.
           ++ apply (Hclean x); [|done]. apply elem_of_app. by right.
      * by apply selected_NoDup.
    + split; [|done]. split; [done|]. simpl.
      rewrite outside_app.
      rewrite (outside_keep _ pre)
        by (intros x Hx; apply Hclean, elem_of_app; by left).
      rewrite (outside_keep _ post)
        by (intros x Hx; apply Hclean, elem_of_app; by right).
      rewrite (outside_drop _ (selected b (lastEval st)))
        by (intros x; apply selected_in_block).
      done.
Qed.

Lemma run_keeps_layout (evaluations : list value) (st : block_state) :
  laid_out b pre post st →
  ∃ st', run b evaluations st = Return st' ∧ laid_out b pre post st'
         ∧ lastEval st' = default (lastEval st) (last evaluations).
Proof.
  revert st. induction evaluations as [|ev evs IH]; intros st Hst.
  - by exists st.
  - destruct (update_keeps_layout ev st Hst) as (st1 & Hu & H1 & Hl).
    destruct (IH st1 H1) as (st' & Hr & H' & Hl').
    exists st'. cbn [run]. rewrite Hu. split; [done|]. split; [done|].
    rewrite Hl', Hl, last_cons. by destruct (last evs).
Qed.

End Run.

Lemma bind_then_run (b : block) (children pre post : list node)
  (evaluation : value) (evaluations : list value) :
  evaluation ≠ VUndefined →
  children = pre ++ blockStart b :: post →
  NoDup children →
  NoDup (ifBlock b) → NoDup (elseBlock b) →
  blockStart b ∉ block_nodes b →
  (∀ n, n ∈ ifBlock b → n ∉ elseBlock b) →
  ∃ st0 st,
    bind b children evaluation = Return st0
    ∧ run b evaluations st0 = Return st
    ∧ lastEval st = default evaluation (last evaluations)
    ∧ fragment (dom st) = []
    ∧ childNodes (dom st)
      = outside (block_nodes b) pre
        ++ blockStart b :: selected b (lastEval st)
        ++ outside (block_nodes b) post.
Proof.
  intros Hev Hcs Hnd Hif Helse Hstart Hdisj.
  set (st0 := {| dom := {| childNodes :=
                             outside (block_nodes b) pre
                             ++ blockStart b :: selected b evaluation
                             ++ outside (block_nodes b) post;
                           fragment := [] |};
                 lastEval := evaluation |}).
  assert (bind b children evaluation = Return st0) as Hb.
  { apply (update_changed b evaluation (initial children) pre post);
      try done.
    - simpl. by destruct evaluation.
    - by apply selected_NoDup. }
  destruct (run_keeps_layout b (outside (block_nodes b) pre)
              (outside (block_nodes b) post) Hstart Hif Helse Hdisj)
    with (evaluations := evaluations) (st := st0)
    as (st & Hr & [Hfr Hl] & Hlast).
  - replace (outside (block_nodes b) pre
             ++ blockStart b :: outside (block_nodes b) post)
      with (outside (block_nodes b) children).
    + unfold outside. by apply NoDup_filter.
    + rewrite Hcs, outside_app. by rewrite outside_cons_keep.
  - intros x Hx. apply elem_of_app in Hx as [Hx|Hx];
      apply elem_of_outside in Hx; tauto.
  - by split.
  - exists st0, st. split; [done|]. split; [exact Hr|]. by split.
Qed.

(** X20: a conditional block that is bound with a guard value other than
    [undefined] never throws, whatever values the guard takes later;
    after every update the memo is the last value of the guard, the
    fragment is empty, and the children are the nodes outside the block in
    their order, with the branch that the last value selects just after
    the start marker. *)
Theorem conditional_block_over_time (b : block)
  (children pre post : list node) (evaluation : value)
  (evaluations : list value) :
  evaluation ≠ VUndefined →
  children = pre ++ blockStart b :: post →
  NoDup children →
  NoDup (ifBlock b) → NoDup (elseBlock b) →
  blockStart b ∉ block_nodes b →
  (∀ n, n ∈ ifBlock b → n ∉ elseBlock b) →
  ∃ st0 st,
    bind b children evaluation = Return st0
    ∧ run b evaluations st0 = Return st
    ∧ lastEval st = default evaluation (last evaluations)
    ∧ fragment (dom st) = []
    ∧ childNodes (dom st)
      = outside (block_nodes b) pre
        ++ blockStart b :: selected b (lastEval st)
        ++ outside (block_nodes b) post.
Proof. apply bind_then_run. Qed.

Lemma conditional_block_over_time_witness :
  let b := {| ifBlock := [1]; elseBlock := [3]; blockStart := 0 |} in
  ∃ st0 st,
    bind b [9; 0; 1; 2; 3; 4] (VBool true) = Return st0
    ∧ run b [VBool false; VBool false; VNum 1; VStr ""] st0 = Return st
    ∧ childNodes (dom st) = [9; 0; 3; 2; 4].
Proof.
  intros b.
  destruct (conditional_block_over_time b [9; 0; 1; 2; 3; 4] [9]
              [1; 2; 3; 4] (VBool true)
              [VBool false; VBool false; VNum 1; VStr ""])
    as (st0 & st & Hb & Hr & Hl & _ & Hc);
    try done;
    try (apply (bool_decide_unpack _); vm_compute; exact I).
  - intros n Hn Hn'. apply list_elem_of_singleton in Hn, Hn'. lia.
  - exists st0, st. split; [exact Hb|]. split; [exact Hr|].
    rewrite Hc, Hl. reflexivity.
Defined.

End IfRunLaws.

(** ** The blocks that [getBlock] extracts *)

Module IfParserLaws.
Import Dom IfParser DomFacts IfRunLaws.

Lemma scan_end_spec (nodes inside tail : list dnode) :
  scan_end nodes = (inside, tail) →
  nodes = inside ++ tail
  ∧ Forall (fun n => is_end n = false) inside
  ∧ match tail with [] => True | e :: _ => is_end e = true end.
Proof.
  revert inside tail. induction nodes as [|n nodes IH]; intros inside tail.
  - intros [= <- <-]. by repeat split.
  - cbn [scan_end]. destruct (is_end n) eqn:E.
    + intros [= <- <-]. by repeat split.
    + destruct (scan_end nodes) as [i t]. intros [= <- <-].
      destruct (IH i t eq_refl) as (-> & Hi & Ht).
      split; [done|]. split; [by constructor|done].
Qed.

Lemma split_else_spec (inside a b : list dnode) :
  split_else inside = (a, b) →
  Forall (fun n => is_else n = false) a
  ∧ ((inside = a ∧ b = [])
     ∨ ∃ e, is_else e = true ∧ inside = a ++ e :: b).
Proof.
  revert a b. induction inside as [|n inside IH]; intros a b.
  - intros [= <- <-]. split; [constructor|by left].
  - cbn [split_else]. destruct (is_else n) eqn:E.
    + intros [= <- <-]. split; [constructor|]. right. by exists n.
    + destruct (split_else inside) as [a' b']. intros [= <- <-].
      destruct (IH a' b' eq_refl) as (Ha & [[-> ->]|(e & He & ->)]).
      * split; [by constructor|by left].
      * split; [by constructor|]. right. by exists e.
Qed.

Lemma getBlock_None (nodes : list dnode) :
  getBlock nodes = None ↔ Forall (fun n => is_start n = false) nodes.
Proof.
  induction nodes as [|n nodes IH]; [by split; [constructor|]|].
  cbn [getBlock]. destruct (is_start n) eqn:E.
  - destruct (scan_end nodes) as [i t]. destruct (split_else i).
    split; [done|]. inversion 1; congruence.
  - destruct (getBlock nodes) as [[blk rem]|].
    + split; [done|]. inversion 1 as [|? ? _ H']. by apply IH in H'.
    + split; [|done]. intros _. constructor; [done|]. by apply IH.
Qed.

Lemma getBlock_Some (nodes rem : list dnode) (blk : extracted) :
  getBlock nodes = Some (blk, rem) →
  ∃ pre inside tail,
    nodes = pre ++ blockStart blk :: inside ++ tail
    ∧ rem = pre ++ tail
    ∧ Forall (fun n => is_start n = false) pre
    ∧ is_start (blockStart blk) = true
    ∧ Forall (fun n => is_end n = false) inside
    ∧ match tail with [] => True | e :: _ => is_end e = true end
    ∧ Forall (fun n => is_else n = false) (ifBlock blk)
    ∧ ((inside = ifBlock blk ∧ elseBlock blk = [])
       ∨ ∃ e, is_else e = true
              ∧ inside = ifBlock blk ++ e :: elseBlock blk).
Proof.
  revert rem blk. induction nodes as [|n nodes IH]; intros rem blk; [done|].
  cbn [getBlock]. destruct (is_start n) eqn:E.
  - destruct (scan_end nodes) as [inside tail] eqn:Es.
    destruct (split_else inside) as [a b] eqn:Ee.
    intros [= <- <-]. simpl.
    apply scan_end_spec in Es as (-> & Hi & Ht).
    apply split_else_spec in Ee as (Ha & Hs).
    exists [], inside, tail. by repeat split.
  - destruct (getBlock nodes) as [[blk' rem']|]; [|done].
    intros [= <- <-].
    destruct (IH rem' blk' eq_refl)
      as (pre & inside & tail & -> & -> & Hp & Hrest).
    exists (n :: pre), inside, tail.
    split; [done|]. split; [done|]. split; [by constructor|done].
Qed.

(** X21: [getBlock] returns [null] exactly when no node is a start
    marker; otherwise the block is that of the first start marker, it
    reaches to the first end marker after it, or to the end of the list
    when there is none, whatever start markers come between; the first
    else marker, if any, separates the two branches and is in neither;
    and the list keeps the nodes before the start marker and those from
    the end marker on. *)
Theorem getBlock_takes_the_first_block (nodes : list dnode) :
  (getBlock nodes = None ↔ Forall (fun n => is_start n = false) nodes)
  ∧ ∀ blk rem, getBlock nodes = Some (blk, rem) →
      ∃ pre inside tail,
        nodes = pre ++ blockStart blk :: inside ++ tail
        ∧ rem = pre ++ tail
        ∧ Forall (fun n => is_start n = false) pre
        ∧ is_start (blockStart blk) = true
        ∧ Forall (fun n => is_end n = false) inside
        ∧ match tail with [] => True | e :: _ => is_end e = true end
        ∧ Forall (fun n => is_else n = false) (ifBlock blk)
        ∧ ((inside = ifBlock blk ∧ elseBlock blk = [])
           ∨ ∃ e, is_else e = true
                  ∧ inside = ifBlock blk ++ e :: elseBlock blk).
Proof.
  split; [apply getBlock_None|]. intros blk rem. apply getBlock_Some.
Qed.

Lemma getBlock_takes_the_first_block_witness :
  let text := fun i v => {| id := i; nodeValue := Some v |} in
  let elem := fun i => {| id := i; nodeValue := None |} in
  let nodes := [elem 0; text 1 "{start:if a}"; elem 2; text 3 "{start:if b}";
                elem 4; text 5 "{end:if}"; elem 6; text 7 "{end:if}"] in
  ∃ blk rem, getBlock nodes = Some (blk, rem)
             ∧ id <$> ifBlock blk = [2; 3; 4]
             ∧ id <$> rem = [0; 5; 6; 7]
             ∧ getBlock rem = None.
Proof.
  intros text elem nodes.
  destruct (getBlock nodes) as [[blk rem]|] eqn:E;
    [|vm_compute in E; discriminate].
  destruct (proj2 (getBlock_takes_the_first_block nodes) blk rem E)
    as (pre & inside & tail & _).
  exists blk, rem. split; [done|].
  vm_compute in E. injection E as <- <-. by repeat split.
Defined.

Lemma blocks_sublist (blk : extracted) (inside : list dnode) :
  (inside = ifBlock blk ∧ elseBlock blk = [])
  ∨ (∃ e, is_else e = true ∧ inside = ifBlock blk ++ e :: elseBlock blk) →
  (id <$> ifBlock blk) ++ (id <$> elseBlock blk) `sublist_of` id <$> inside.
Proof.
  intros [[-> ->]|(e & _ & ->)].
  - by rewrite app_nil_r.
  - rewrite fmap_app, fmap_cons. apply sublist_app; [done|].
    by apply sublist_cons.
Qed.

Lemma nodes_of_sublist (blk : extracted) (inside : list dnode) :
  (inside = ifBlock blk ∧ elseBlock blk = [])
  ∨ (∃ e, is_else e = true ∧ inside = ifBlock blk ++ e :: elseBlock blk) →
  nodes_of blk `sublist_of` id <$> (blockStart blk :: inside).
Proof.
  intros H. unfold nodes_of. rewrite fmap_cons.
  apply sublist_skip. by apply blocks_sublist.
Qed.

Lemma extract_nodes (fuel : nat) (nodes : list dnode) :
  NoDup (id <$> nodes) →
  NoDup (concat (nodes_of <$> extract fuel nodes))
  ∧ ∀ x, x ∈ concat (nodes_of <$> extract fuel nodes) → x ∈ id <$> nodes.
Proof.
  revert nodes. induction fuel as [|f IH]; intros nodes Hnd.
  - split; [constructor|]. intros x Hx. by apply elem_of_nil in Hx.
  - cbn [extract]. destruct nodes as [|n0 nodes0]; [split; [constructor|done]|].
    destruct (getBlock (n0 :: nodes0)) as [[blk rem]|] eqn:E;
      [|split; [constructor|]; intros x Hx; by apply elem_of_nil in Hx].
    apply getBlock_Some in E
      as (pre & inside & tail & Hn & -> & _ & _ & _ & _ & _ & Hs).
    rewrite Hn in *. clear Hn.
    assert (id <$> pre ++ blockStart blk :: inside ++ tail
            ≡ₚ (id <$> (blockStart blk :: inside)) ++ (id <$> pre ++ tail))
      as Hperm.
    { rewrite !fmap_app, !fmap_cons, !fmap_app.
      rewrite (Permutation_app_comm (id <$> pre)). simpl.
      rewrite <- !app_assoc. apply perm_skip.
      apply Permutation_app_head, Permutation_app_comm. }
    rewrite Hperm in Hnd. apply NoDup_app in Hnd as (Hb & Hd & Hr).
    destruct (IH _ Hr) as [IHn IHs].
    pose proof (nodes_of_sublist blk inside Hs) as Hsub.
    cbn [fmap list_fmap concat]. split.
    + apply NoDup_app. split; [exact (sublist_NoDup _ _ Hb Hsub)|].
      split; [|done].
      intros x Hx Hx'. apply IHs in Hx'.
      apply (Hd x); [|done]. exact (elem_of_sublist _ _ _ Hx Hsub).
    + intros x Hx. rewrite Hperm. apply elem_of_app.
      apply elem_of_app in Hx as [Hx|Hx].
      * left. exact (elem_of_sublist _ _ _ Hx Hsub).
      * right. by apply IHs.
Qed.

(** X22: when the siblings are distinct nodes, the blocks that the loop of
    [parseIfStatements] extracts own distinct nodes of the sibling list:
    no node is the start marker or a branch node of two blocks, nor twice
    of one. *)
Theorem extracted_blocks_are_disjoint (nodes : list dnode) :
  NoDup (id <$> nodes) →
  NoDup (concat (nodes_of <$> extract_blocks nodes))
  ∧ ∀ x, x ∈ concat (nodes_of <$> extract_blocks nodes) → x ∈ id <$> nodes.
Proof. apply extract_nodes. Qed.

Lemma extracted_blocks_are_disjoint_witness :
  let text := fun i v => {| id := i; nodeValue := Some v |} in
  let elem := fun i => {| id := i; nodeValue := None |} in
  let nodes := [text 1 "{start:if a}"; elem 2; text 3 "{:else}"; elem 4;
                text 5 "{end:if}{start:if b}"; elem 6; text 7 "{end:if}"] in
  nodes_of <$> extract_blocks nodes = [[1; 2; 4]; [5; 6]]
  ∧ NoDup (concat (nodes_of <$> extract_blocks nodes)).
Proof.
  intros text elem nodes. split; [vm_compute; reflexivity|].
  apply (extracted_blocks_are_disjoint nodes).
  apply (bool_decide_unpack _). vm_compute. exact I.
Defined.

(** X23: the block that [getBlock] takes from a list of distinct siblings
    can be bound and updated: with a first guard value other than
    [undefined] no update throws, and after the updates the nodes of the
    branch that the last guard value selects are the ones just after the
    start marker, the nodes outside the two branches being where they
    were, in their order. *)
Theorem extracted_block_runs (nodes rem : list dnode) (blk : extracted)
  (evaluation : value) (evaluations : list value) :
  getBlock nodes = Some (blk, rem) →
  NoDup (id <$> nodes) →
  evaluation ≠ VUndefined →
  ∃ st0 st before after,
    IfBlock.bind (to_block blk) (id <$> nodes) evaluation = Return st0
    ∧ IfRun.run (to_block blk) evaluations st0 = Return st
    ∧ IfBlock.lastEval st = default evaluation (last evaluations)
    ∧ outside (IfBlock.block_nodes (to_block blk)) (id <$> nodes)
      = before ++ id (blockStart blk) :: after
    ∧ childNodes (IfBlock.dom st)
      = before ++ id (blockStart blk)
        :: IfBlock.selected (to_block blk) (IfBlock.lastEval st) ++ after.
Proof.
  intros E Hnd Hev.
  apply getBlock_Some in E
    as (pre & inside & tail & -> & -> & _ & _ & _ & _ & _ & Hs).
  pose proof (blocks_sublist blk inside Hs) as Hsub.
  assert (NoDup (id (blockStart blk) :: (id <$> inside))) as Hnd'.
  { rewrite fmap_app, fmap_cons, fmap_app in Hnd.
    apply NoDup_app in Hnd as (_ & _ & Hnd).
    rewrite app_comm_cons in Hnd. by apply NoDup_app in Hnd as (Hnd & _). }
  apply NoDup_cons in Hnd' as [Hst Hin].
  pose proof (sublist_NoDup _ _ Hin Hsub) as Hbn.
  apply NoDup_app in Hbn as (Hif & Hdisj & Helse).
  destruct (bind_then_run (to_block blk)
              (id <$> pre ++ blockStart blk :: inside ++ tail)
              (id <$> pre) (id <$> inside ++ tail)
              evaluation evaluations)
    as (st0 & st & Hb & Hr & Hl & _ & Hc); try done.
  - by rewrite fmap_app, fmap_cons.
  - unfold IfBlock.block_nodes. simpl. intros Hx. apply Hst.
    exact (elem_of_sublist _ _ _ Hx Hsub).
  - exists st0, st. eexists _, _. split; [exact Hb|]. split; [exact Hr|].
    split; [exact Hl|]. split; [|exact Hc].
    rewrite fmap_app, fmap_cons, outside_app. f_equal.
    apply outside_cons_keep.
    unfold IfBlock.block_nodes. simpl. intros Hx. apply Hst.
    exact (elem_of_sublist _ _ _ Hx Hsub).
Qed.

Lemma extracted_block_runs_witness :
  let text := fun i v => {| id := i; nodeValue := Some v |} in
  let elem := fun i => {| id := i; nodeValue := None |} in
  let nodes := [elem 0; text 1 "{start:if a}"; elem 2; text 3 "{:else}";
                elem 4; text 5 "{end:if}"; elem 6] in
  ∃ blk rem st0 st,
    getBlock nodes = Some (blk, rem)
    ∧ IfBlock.bind (to_block blk) (id <$> nodes) (VBool true) = Return st0
    ∧ IfRun.run (to_block blk) [VBool false] st0 = Return st
    ∧ childNodes (IfBlock.dom st) = [0; 1; 4; 3; 5; 6].
Proof.
  intros text elem nodes.
  destruct (getBlock nodes) as [[blk rem]|] eqn:E;
    [|vm_compute in E; discriminate].
  destruct (extracted_block_runs nodes rem blk (VBool true) [VBool false] E)
    as (st0 & st & before & after & Hb & Hr & _); [| |].
  - apply (bool_decide_unpack _). vm_compute. exact I.
  - discriminate.
  - exists blk, rem, st0, st. split; [done|].
    split; [exact Hb|]. split; [exact Hr|].
    vm_compute in E. injection E as <- <-.
    vm_compute in Hb. injection Hb as <-.
    vm_compute in Hr. injection Hr as <-. reflexivity.
Defined.

End IfParserLaws.

(** ** List blocks over primitive items *)

Module EachLaws.
Import Store Heap Registrar Evaluator Dom EachBlock EachSpec DomFacts
  EachBlockFacts.



















End EachLaws.

(** ** Registering and firing *)

Module StoreCompose.
Import Store Heap Text Chars Registrar JSFacts StoreFacts StoreLaws PathLaws
  TokenLaws InterpolationLaws HandlerLaws.







Lemma token_char_not_quote (c : ascii) :
  is_token_char c = true →
  is_quote c = false ∧ is_space c = false ∧ is_brace c = false
  ∧ is_lbracket c = false.
Proof. destruct c as [[] [] [] [] [] [] [] []]; vm_compute; by intros. Qed.

Lemma remove_quoted_none (s : chars) :
  Forall (fun c => is_quote c = false) s → remove_quoted_from 0 s = s.
Proof.
  induction 1 as [|c s Hc _ IH]; [done|].
  cbn [remove_quoted_from]. by rewrite Hc, IH.
Qed.

Lemma trim_ends (c d : ascii) (s : chars) :
  is_space c = false → is_space d = false →
  trim (c :: s ++ [d]) = c :: s ++ [d].
Proof.
  intros Hc Hd. unfold trim.
  assert (trim_start (c :: s ++ [d]) = c :: s ++ [d]) as ->
    by (cbn [trim_start]; by rewrite Hc).
  assert (reverse (c :: s ++ [d]) = d :: reverse s ++ [c]) as ->
    by (by rewrite reverse_cons, reverse_app).
  assert (trim_start (d :: reverse s ++ [c]) = d :: reverse s ++ [c]) as ->
    by (cbn [trim_start]; by rewrite Hd).
  rewrite reverse_cons, reverse_app, reverse_involutive.
  by rewrite <- app_assoc.
Qed.

Lemma trim_braced (k : chars) :
  trim ("{"%char :: k ++ ["}"%char]) = "{"%char :: k ++ ["}"%char].
Proof. by apply trim_ends. Qed.

Lemma split_tokens_run (k rest cur : chars) (in_sep : bool) :
  Forall (fun c => is_token_char c = true) k →
  split_tokens_from (k ++ rest) cur in_sep
  = split_tokens_from rest (reverse k ++ cur)
      (match k with [] => in_sep | _ => false end).
Proof.
  intros H. revert cur in_sep.
  induction H as [|c k Hc Hk IH]; intros cur in_sep; [done|].
  cbn [app split_tokens_from]. rewrite Hc, IH, reverse_cons, <- app_assoc.
  simpl. by destruct k.
Qed.

Lemma raw_tokens_braced (k : string) :
  k ≠ "" → Forall (fun c => name_char c) (of_string k) →
  raw_tokens ("{" +:+ k +:+ "}") = [k].
Proof.
  intros Hne Hk. unfold raw_tokens.
  assert (of_string ("{" +:+ k +:+ "}") = "{"%char :: of_string k ++ ["}"%char])
    as -> by (change ("{" +:+ k +:+ "}") with (String "{" (k +:+ "}"));
              simpl; by rewrite of_string_app).
  assert (Forall (fun c => is_token_char c = true) (of_string k)) as Htok
    by (eapply Forall_impl; [exact Hk|]; by intros c [? _]).
  unfold remove_quoted. rewrite remove_quoted_none.
  2: { constructor; [done|]. apply Forall_app. split; [|by constructor].
       eapply Forall_impl; [exact Htok|].
       intros c Hc. by apply token_char_not_quote in Hc as [? _]. }
  rewrite trim_braced. unfold split_tokens. cbn [split_tokens_from].
  change (is_token_char "{"%char) with false. cbn iota.
  rewrite (split_tokens_run _ _ _ _ Htok). cbn [split_tokens_from].
  change (is_token_char "}"%char) with false. cbn iota.
  assert (of_string k ≠ []) as Hk0 by (intros E; by apply of_string_nil in E).
  destruct (of_string k) as [|c0 k0] eqn:Ek; [done|].
  rewrite app_nil_r, reverse_involutive. cbn [reverse rev_append].
  rewrite <- Ek. simpl. rewrite to_of_string.
  rewrite filter_cons_False by (intros H; by apply H).
  rewrite filter_cons_True by done.
  by rewrite filter_cons_False by (intros H; by apply H).
Qed.

Lemma root_name (k : string) :
  Forall (fun c => name_char c) (of_string k) → root k = k.
Proof.
  intros Hk. unfold root.
  assert (includes_char is_dot (of_string k) = false) as ->.
  { unfold includes_char. induction Hk as [|c l [_ Hc] _ IH]; [done|].
    simpl. by rewrite Hc, IH. }
  assert (includes_char is_lbracket (of_string k) = false) as ->; [|done].
  unfold includes_char. induction Hk as [|c l [Hc _] _ IH]; [done|].
  simpl. apply token_char_not_quote in Hc as (_ & _ & _ & ->). by rewrite IH.
Qed.

Lemma brace_matches_braced (k : string) :
  k ≠ "" → Forall (fun c => name_char c) (of_string k) →
  brace_matches ("{" +:+ k +:+ "}") = Some ["{" +:+ k +:+ "}"].
Proof.
  intros Hne Hk. unfold brace_matches.
  assert (of_string ("{" +:+ k +:+ "}") = "{"%char :: of_string k ++ ["}"%char])
    as E by (change ("{" +:+ k +:+ "}") with (String "{" (k +:+ "}"));
             simpl; by rewrite of_string_app).
  rewrite E. cbn [brace_matches_from].
  change (is_lbrace "{"%char) with true. cbn iota.
  rewrite brace_length_body.
  - rewrite brace_matches_from_skip.
    replace (S (length (of_string k)))
      with (length (of_string k ++ ["}"%char]))
      by (rewrite length_app; simpl; lia).
    rewrite drop_all, firstn_all, <- E.
    cbn [brace_matches_from fmap list_fmap]. by rewrite to_of_string.
  - intros E'. by apply of_string_nil in E'.
  - eapply Forall_impl; [exact Hk|]. intros c [Hc _].
    by apply token_char_not_quote in Hc as (_ & _ & ? & _).
Qed.

(** X27: a template that is the one interpolation [{key}], for a key of
    the store that is made of letters, [_] and [$], registers the callback
    as a subscriber of that key in the store, and changes nothing else;
    the store has no key named [__globalState] or [globalState]. *)
Theorem registerDependencies_of_one_key (W : World) (m : nat)
  (s : ReactiveState) (k : string) (c : cb) :
  managers W !! m = Some s →
  is_Some (state s !! k) →
  state s !! "__globalState" = None →
  state s !! "globalState" = None →
  k ≠ "" → Forall (fun x => name_char x) (of_string k) →
  registerDependencies W ("{" +:+ k +:+ "}") (StoreProxy m) c (VObj m)
  = Return {| objects := objects W; arrays := arrays W;
              managers := <[m := subscribe k c s]> (managers W) |}.
Proof.
  intros Hm Hk Hg1 Hg2 Hne Hchars.
  unfold registerDependencies. rewrite (brace_matches_braced _ Hne Hchars).
  cbn [register_expressions]. unfold register_expression.
  unfold getTokensFromExpression.
  rewrite (raw_tokens_braced _ Hne Hchars).
  assert (unique [k] = [k]) as -> by done.
  cbn [fmap list_fmap]. rewrite (root_name _ Hchars).
  assert (in_globalState W (StoreProxy m) k = Normal false) as Hin.
  { unfold in_globalState, var_get, manager. rewrite Hm. simpl.
    unfold proxy_get.
    by rewrite (proj2 (has_prop_false _ _) Hg1). }
  assert (keep_token W (StoreProxy m) (VObj m) k = Normal true) as Hkeep.
  { unfold keep_token. rewrite Hin.
    unfold manager_globalState. rewrite Hm.
    rewrite (proj2 (has_prop_false _ _) Hg2). simpl.
    unfold manager. rewrite Hm. simpl.
    by rewrite (proj2 (has_prop_true _ _) Hk). }
  cbn [filter_tokens]. rewrite Hkeep, Hin.
  unfold on_manager. by rewrite Hm.
Qed.

Lemma registerDependencies_of_one_key_witness :
  ∃ W', registerDependencies Examples.two_keys_world "{a}" (StoreProxy 0) 7
          (VObj 0) = Return W'
        ∧ subscribers (manager W' 0) = [("a", [7])].
Proof.
  eexists. split.
  - apply (registerDependencies_of_one_key Examples.two_keys_world 0
             (Store.new {[ "a" := VNum 1; "b" := VNum 2 ]}) "a" 7);
      try (vm_compute; reflexivity); try discriminate.
    + by eexists.
    + apply (bool_decide_unpack _). vm_compute. exact I.
  - vm_compute. reflexivity.
Defined.

End StoreCompose.

(** ** The first render of a list of objects *)

Module FirstRender.
Import Store Heap Registrar Evaluator Dom EachBlock EachSpec DomFacts
  EachBlockFacts.

Section WithHost.

Variable uniid : nat → string.









End WithHost.



End FirstRender.
